(** * amgcl MPI examples: row ranges, problem assembly, repartitioning, dispatch

    A shallow embedding of [examples/mpi/mpi_amg.cpp] and of
    [tutorial/2.Serena/serena_mpi_mixed.cpp].

    Integers are [Z] with the width of the C++ type written out: [ptrdiff_t]
    is 64-bit two's complement, [size_t] is 64-bit unsigned, [int] is 32-bit
    two's complement.  Signed overflow is undefined in C++; the model wraps,
    and the theorems that depend on the arithmetic carry the range of the
    inputs as hypotheses, so that no operation of the model ever wraps inside
    a theorem.  [double] is the kernel's binary64 [float]. *)

From Stdlib Require Import String.
From Stdlib Require Import ZArith List Lia Bool Sorted.
From Stdlib Require Import PrimFloat SpecFloat FloatOps.
Import ListNotations.

Local Open Scope Z_scope.

(* ================================================================== *)
(** ** Machine integers *)

Module Machine.

Definition PTRDIFF_MAX : Z := 2 ^ 63 - 1.
Definition PTRDIFF_MIN : Z := - 2 ^ 63.
Definition SIZE_MAX : Z := 2 ^ 64 - 1.
Definition INT_MAX : Z := 2 ^ 31 - 1.
Definition INT_MIN : Z := - 2 ^ 31.

(** Reduction of a mathematical integer to the three C++ types. *)
Definition to_ptrdiff (z : Z) : Z := (z + 2 ^ 63) mod 2 ^ 64 - 2 ^ 63.
Definition to_size (z : Z) : Z := z mod 2 ^ 64.
Definition to_int (z : Z) : Z := (z + 2 ^ 31) mod 2 ^ 32 - 2 ^ 31.

Definition is_ptrdiff (z : Z) : Prop := PTRDIFF_MIN <= z <= PTRDIFF_MAX.
Definition is_size (z : Z) : Prop := 0 <= z <= SIZE_MAX.
Definition is_int (z : Z) : Prop := INT_MIN <= z <= INT_MAX.

(** [ptrdiff_t] arithmetic: [/] truncates towards zero and [%] takes the
    sign of the dividend, which is [Z.quot] and [Z.rem]. *)
Definition padd (a b : Z) : Z := to_ptrdiff (a + b).
Definition psub (a b : Z) : Z := to_ptrdiff (a - b).
Definition pmul (a b : Z) : Z := to_ptrdiff (a * b).
Definition pdiv (a b : Z) : Z := to_ptrdiff (Z.quot a b).
Definition prem (a b : Z) : Z := Z.rem a b.

(** [size_t] arithmetic, modulo [2^64]. *)
Definition uadd (a b : Z) : Z := to_size (a + b).
Definition usub (a b : Z) : Z := to_size (a - b).
Definition umul (a b : Z) : Z := to_size (a * b).
Definition udiv (a b : Z) : Z := a / b.
Definition urem (a b : Z) : Z := a mod b.

(** [int] multiplication. *)
Definition imul (a b : Z) : Z := to_int (a * b).

(** Conversion of an integer to [double]: round to nearest, ties to even. *)
Definition to_double (z : Z) : float :=
  SF2Prim (binary_normalize prec emax z 0 false).

End Machine.

Import Machine.

(* ================================================================== *)
(** ** Row ranges *)

Module Range.

(** The range computation that opens [assemble_poisson3d] (lines 59-64),
    [read_matrix_market] (133-139) and [read_binary] (167-173): the three
    functions carry the same statements, on [n3] or [n], [comm.size],
    [comm.rank] and [block_size]. *)
Definition row_range (n size rank block_size : Z) : Z * Z :=
  let chunk := pdiv (psub (padd n size) 1) size in
  let chunk :=
    if negb (prem chunk block_size =? 0)
    then padd chunk (psub block_size (prem chunk block_size))
    else chunk in
  let row_beg := Z.min n (pmul chunk rank) in
  let row_end := Z.min n (padd row_beg chunk) in
  (row_beg, row_end).

(** The tutorial's computation (serena_mpi_mixed.cpp, lines 45-48), on
    [size_t] and with the block size fixed at [B = 3]. *)
Definition B : Z := 3.

Definition serena_row_range (rows size rank : Z) : Z * Z :=
  let chunk := udiv (usub (uadd rows size) 1) size in
  let chunk :=
    if negb (urem chunk B =? 0)
    then uadd chunk (usub B (urem chunk B))
    else chunk in
  let row_beg := Z.min rows (umul chunk rank) in
  let row_end := Z.min rows (uadd row_beg chunk) in
  (row_beg, row_end).

(** The range of every rank, in rank order. *)
Definition all_ranges (n size block_size : Z) : list (Z * Z) :=
  map (fun r => row_range n size (Z.of_nat r) block_size)
      (seq 0 (Z.to_nat size)).

(** *** The computation in the words of the specification *)

(** [ceil (N / P)]. *)
Definition ceil_div (N P : Z) : Z := - ((- N) / P).

(** The next multiple of [align], the number itself when it is one. *)
Definition round_up (c align : Z) : Z :=
  if c mod align =? 0 then c else (c / align + 1) * align.

Definition aligned_chunk (N P align : Z) : Z := round_up (ceil_div N P) align.

Definition assign (N P rank align : Z) : Z * Z :=
  let chunk := aligned_chunk N P align in
  let row_beg := Z.min N (chunk * rank) in
  let row_end := Z.min N (row_beg + chunk) in
  (row_beg, row_end).

(** The sizes for which no step of [row_range] leaves [ptrdiff_t]:
    [comm.size], [comm.rank] and [block_size] are [int]s, and the row count
    stays below [2^61]. *)
Definition MAX_ROWS : Z := 2 ^ 61.

Record fits (N P rank align : Z) : Prop := {
  fits_rows : 0 <= N <= MAX_ROWS;
  fits_size : 1 <= P <= INT_MAX;
  fits_rank : 0 <= rank < P;
  fits_align : 1 <= align <= INT_MAX
}.

End Range.

(* ================================================================== *)
(** ** Compressed row storage *)

Module Crs.

(** The three [std::vector]s of a local strip. *)
Record arrays : Type := {
  ptr : list Z;
  col : list Z;
  val : list float
}.

(** [v.push_back(x)]. *)
Definition push_back {A : Type} (v : list A) (x : A) : list A := v ++ [x].

(** [col.push_back(c); val.push_back(v);] *)
Definition push_entry (a : arrays) (c : Z) (v : float) : arrays :=
  {| ptr := ptr a; col := push_back (col a) c; val := push_back (val a) v |}.

(** The strip without rows. *)
Definition empty_strip : arrays := {| ptr := [0]; col := []; val := [] |}.

(** A strip of [chunk] rows as the readers deliver it: [chunk + 1] row
    pointers that start the rows inside [col] and never decrease, as many
    values as columns, and columns that are [ptrdiff_t]s. *)
Record well_formed (chunk : Z) (a : arrays) : Prop := {
  wf_ptr_size : length (ptr a) = S (Z.to_nat chunk);
  wf_ptr_monotone :
    forall r, (r < Z.to_nat chunk)%nat ->
      0 <= nth r (ptr a) 0 <= nth (S r) (ptr a) 0
      /\ nth (S r) (ptr a) 0 <= Z.of_nat (length (col a));
  wf_val_size : length (val a) = length (col a);
  wf_col_size : Z.of_nat (length (col a)) <= PTRDIFF_MAX;
  wf_col_range : Forall is_ptrdiff (col a)
}.

(** The stored entries of local row [r], as pairs of column and value:
    positions [ptr[r]] to [ptr[r+1]] (excluded) of [col] and [val]. *)
Definition row_of (a : arrays) (r : nat) : list (Z * float) :=
  let b := nth r (ptr a) 0 in
  let e := nth (S r) (ptr a) 0 in
  firstn (Z.to_nat (e - b)) (skipn (Z.to_nat b) (combine (col a) (val a))).

(** Appending one row the way [row_step] does: its entries go to [col] and
    [val], and the new size of [col] goes to [ptr]. *)
Definition append_row (a : arrays) (r : list (Z * float)) : arrays :=
  {| ptr := ptr a ++ [Z.of_nat (length (col a) + length r)];
     col := col a ++ map fst r;
     val := val a ++ map snd r |}.

Definition append_rows (a : arrays) (rows : list (list (Z * float))) : arrays :=
  fold_left append_row rows a.

(** The row pointers of a list of rows: the running totals of their sizes. *)
Definition offsets (rows : list (list (Z * float))) : list Z :=
  map (fun k => Z.of_nat (length (concat (firstn k rows))))
      (seq 0 (S (length rows))).

Definition crs_of (rows : list (list (Z * float))) : arrays :=
  {| ptr := offsets rows;
     col := map fst (concat rows);
     val := map snd (concat rows) |}.

End Crs.

Import Crs.

(* ================================================================== *)
(** ** The synthetic problem: [assemble_poisson3d] *)

Module Poisson.

Import Range.

Local Open Scope float_scope.

(** The body of the loop over the rows (lines 78-115).  A vector's size
    never exceeds [PTRDIFF_MAX], so [col.size()] converts to [ptrdiff_t]
    unchanged. *)
Definition row_step (n : Z) (h2i : float) (idx : Z) (a : arrays) : arrays :=
  let k := pdiv idx (pmul n n) in
  let j := prem (pdiv idx n) n in
  let i := prem idx n in
  let a := if (k >? 0)%Z then push_entry a (psub idx (pmul n n)) (- h2i) else a in
  let a := if (j >? 0)%Z then push_entry a (psub idx n) (- h2i) else a in
  let a := if (i >? 0)%Z then push_entry a (psub idx 1) (- h2i) else a in
  let a := push_entry a idx (to_double 6 * h2i) in
  let a := if (padd i 1 <? n)%Z then push_entry a (padd idx 1) (- h2i) else a in
  let a := if (padd j 1 <? n)%Z then push_entry a (padd idx n) (- h2i) else a in
  let a := if (padd k 1 <? n)%Z then push_entry a (padd idx (pmul n n)) (- h2i) else a in
  {| ptr := push_back (ptr a) (Z.of_nat (length (col a)));
     col := col a;
     val := val a |}.

(** [for (idx = row_beg; idx < row_end; ++idx)]: [count] iterations from
    [idx], where [count] is [row_end - row_beg] when that is positive and
    zero otherwise. *)
Fixpoint rows_loop (count : nat) (n : Z) (h2i : float) (idx : Z) (a : arrays)
  : arrays :=
  match count with
  | O => a
  | S count' => rows_loop count' n h2i (padd idx 1) (row_step n h2i idx a)
  end.

(** What [assemble_poisson3d] leaves in its four output vectors, and its
    return value.  The vectors are cleared or overwritten on entry, so their
    former contents play no part. *)
Record assembled : Type := {
  chunk : Z;
  strip : arrays;
  rhs : list float
}.

Definition assemble_poisson3d (size rank : Z) (n block_size : Z) : assembled :=
  let n3 := pmul (pmul n n) n in
  let '(row_beg, row_end) := row_range n3 size rank block_size in
  let chunk := psub row_end row_beg in
  let rhs := repeat 1 (Z.to_nat chunk) in
  let h2i := to_double (pmul (psub n 1) (psub n 1)) in
  let a := {| ptr := [0%Z]; col := []; val := [] |} in
  let a := rows_loop (Z.to_nat (row_end - row_beg)) n h2i row_beg a in
  {| chunk := chunk; strip := a; rhs := rhs |}.

(** The grid of side [n] has [n^3] points, within [MAX_ROWS]. *)
Definition grid (n : Z) : Prop := 2 <= n /\ n * n * n <= MAX_ROWS.

(** The row indices [idx], [idx + 1], ... that [count] iterations visit. *)
Definition rows_from (idx : Z) (count : nat) : list Z :=
  map (fun k => (idx + Z.of_nat k)%Z) (seq 0 count).

(** *** The stencil in the words of the specification *)

Definition in_grid (n c : Z) : bool := ((0 <=? c) && (c <? n))%Z.

(** The entry of the neighbour at offset [d] of [idx], present when its
    coordinate [c] is in the grid. *)
Definition neighbour (n : Z) (h2i : float) (idx d c : Z) : list (Z * float) :=
  if in_grid n c then [((idx + d)%Z, - h2i)] else [].

Definition stencil (n idx : Z) : list (Z * float) :=
  let k := (idx / (n * n))%Z in
  let j := ((idx / n) mod n)%Z in
  let i := (idx mod n)%Z in
  let h2i := to_double ((n - 1) * (n - 1)) in
  neighbour n h2i idx (- (n * n)) (k - 1)
  ++ neighbour n h2i idx (- n) (j - 1)
  ++ neighbour n h2i idx (- 1) (i - 1)
  ++ [(idx, to_double 6 * h2i)]
  ++ neighbour n h2i idx 1 (i + 1)
  ++ neighbour n h2i idx n (j + 1)
  ++ neighbour n h2i idx (n * n) (k + 1).

End Poisson.

(* ================================================================== *)
(** ** Problems read from files, and the choice of the source in [main] *)

Module Source.

Import Range.
Import Poisson.

Section Readers.

(** Modelled from the spec: the row-range reader capability, whose headers
    [amgcl/io/mm.hpp] and [amgcl/io/binary.hpp] are not among the sources.
    [mm_rows f] is [mm_reader(f).rows()]; [mm_matrix f b e] is what
    [mm_reader(f)(ptr, col, val, b, e)] leaves in the three vectors;
    [mm_vector f b e] is what [mm_reader(f)(rhs, b, e)] leaves in [rhs];
    [crs_size], [read_crs] and [read_dense] are the binary counterparts. *)
Variable mm_rows : string -> Z.
Variable mm_matrix : string -> Z -> Z -> arrays.
Variable mm_vector : string -> Z -> Z -> list float.
Variable crs_size : string -> Z.
Variable read_crs : string -> Z -> Z -> Z -> arrays.
Variable read_dense : string -> Z -> Z -> list float.

(** [rhs_file.empty()]. *)
Definition empty (s : string) : bool :=
  match s with EmptyString => true | String _ _ => false end.

(** [rhs.resize(chunk); std::fill(rhs.begin(), rhs.end(), 1.0);] *)
Definition ones (chunk : Z) : list float := repeat 1%float (Z.to_nat chunk).

Definition read_matrix_market (size rank : Z) (A_file rhs_file : string)
  (block_size : Z) : assembled :=
  let n := mm_rows A_file in
  let '(row_beg, row_end) := row_range n size rank block_size in
  let chunk := psub row_end row_beg in
  let a := mm_matrix A_file row_beg row_end in
  let rhs :=
    if empty rhs_file then ones chunk
    else mm_vector rhs_file row_beg row_end in
  {| chunk := chunk; strip := a; rhs := rhs |}.

Definition read_binary (size rank : Z) (A_file rhs_file : string)
  (block_size : Z) : assembled :=
  let n := crs_size A_file in
  let '(row_beg, row_end) := row_range n size rank block_size in
  let chunk := psub row_end row_beg in
  let a := read_crs A_file n row_beg row_end in
  let rhs :=
    if empty rhs_file then ones chunk
    else read_dense rhs_file row_beg row_end in
  {| chunk := chunk; strip := a; rhs := rhs |}.

(** The command line, as [main] reads it from [vm]: [matrix] is absent when
    [vm.count("matrix")] is zero; [rhs] defaults to the empty string,
    [binary] to false, [block_size] to 1 and [size] to 128. *)
Record options : Type := {
  opt_matrix : option string;
  opt_rhs : string;
  opt_binary : bool;
  opt_block_size : Z;
  opt_size : Z
}.

(** Lines 519-542 of [main]: [aggr_block] is
    [prm.get("precond.coarsening.aggr.block_size", 1)]. *)
Definition load (size rank : Z) (o : options) (aggr_block : Z) : assembled :=
  let block_size := opt_block_size o in
  match opt_matrix o with
  | Some A_file =>
      if opt_binary o
      then read_binary size rank A_file (opt_rhs o) (imul block_size aggr_block)
      else read_matrix_market size rank A_file (opt_rhs o)
             (imul block_size aggr_block)
  | None =>
      assemble_poisson3d size rank (opt_size o) (imul block_size aggr_block)
  end.

(** The row count and the range a source works on. *)
Definition global_rows (o : options) : Z :=
  match opt_matrix o with
  | Some A_file => if opt_binary o then crs_size A_file else mm_rows A_file
  | None => pmul (pmul (opt_size o) (opt_size o)) (opt_size o)
  end.

Definition local_range (size rank : Z) (o : options) (aggr_block : Z) : Z * Z :=
  row_range (global_rows o) size rank (imul (opt_block_size o) aggr_block).

End Readers.

(** A binary file of six rows and a right-hand-side file, on two ranks. *)
Definition sample_options : options :=
  {| opt_matrix := Some "A.bin"%string; opt_rhs := "b.bin"%string;
     opt_binary := true; opt_block_size := 3; opt_size := 128 |}.

End Source.

(* ================================================================== *)
(** ** Repartitioning: [partition] *)

Module Partition.

(** [amgcl::runtime::mpi::partition::type]. *)
Inductive ptype : Type := merge | parmetis | ptscotch.

Definition ptype_eqb (p q : ptype) : bool :=
  match p, q with
  | merge, merge | parmetis, parmetis | ptscotch, ptscotch => true
  | _, _ => false
  end.

Section Backend.

(** Modelled from the spec: the distributed matrix and the backend, whose
    headers ([amgcl/mpi/distributed_matrix.hpp], [amgcl/mpi/partition/],
    [amgcl/backend/]) are not among the sources.  [mat] is the value of a
    distributed matrix, [elt] an entry of a backend vector.  [construct] is
    the constructor of [distributed_matrix] from a communicator's size and
    rank and a strip; [partitioner p A b] is the restriction operator that
    the run-time partition wrapper of type [p] returns for [A] and block
    size [b]; [mtranspose] and [mproduct] are [transpose] and [product];
    [loc_rows] is [loc_rows()]; [spmv a A x b y] is what
    [backend::spmv(a, A, x, b, y)] leaves in [y], the vector
    [a * A * x + b * y], of the size of [y]. *)
Variable strip_t : Type.
Variable mat : Type.
Variable elt : Type.
Variable zero : elt.
Variable construct : Z -> Z -> strip_t -> mat.
Variable partitioner : ptype -> mat -> Z -> mat.
Variable mtranspose : mat -> mat.
Variable mproduct : mat -> mat -> mat.
Variable loc_rows : mat -> nat.
Variable spmv : Z -> mat -> list elt -> Z -> list elt -> list elt.

(** A distributed matrix is composable until it is moved to the backend. *)
Record dmatrix : Type := {
  content : mat;
  resident : bool
}.

(** The calls that [partition] makes, in the order it makes them. *)
Inductive call : Type :=
| Tic (name : string)
| Toc (name : string)
| Construct
| RunPartitioner (p : ptype) (shrink_ratio : Z) (block_size : Z)
| Transpose (m : mat)
| Product (a b : mat)
| MoveToBackend (m : mat)
| Spmv (m : mat).

(** Computations that log their calls and may fail. *)
Definition M (A : Type) : Type := list call -> option (A * list call).

Definition ret {A : Type} (x : A) : M A := fun log => Some (x, log).

Definition bind {A B : Type} (m : M A) (f : A -> M B) : M B :=
  fun log =>
    match m log with
    | Some (x, log') => f x log'
    | None => None
    end.

Definition fail {A : Type} : M A := fun _ => None.

Definition emit (c : call) : M unit := fun log => Some (tt, log ++ [c]).

Notation "x <- m ;; k" := (bind m (fun x => k))
  (at level 61, m at next level, right associativity).
Notation "m ;;; k" := (bind m (fun _ => k))
  (at level 61, right associativity).

(** Modelled from the spec: algebraic composition is available on
    composable matrices only, the matrix-vector product on backend-resident
    ones only, and the move to the backend is one-way. *)
Definition make_dmatrix (size rank : Z) (Astrip : strip_t) : M dmatrix :=
  emit Construct ;;;
  ret {| content := construct size rank Astrip; resident := false |}.

Definition run_partitioner (p : ptype) (shrink_ratio : Z) (A : dmatrix)
  (block_size : Z) : M dmatrix :=
  emit (RunPartitioner p shrink_ratio block_size) ;;;
  if resident A then fail
  else ret {| content := partitioner p (content A) block_size;
              resident := false |}.

Definition transpose (A : dmatrix) : M dmatrix :=
  emit (Transpose (content A)) ;;;
  if resident A then fail
  else ret {| content := mtranspose (content A); resident := false |}.

Definition product (A B : dmatrix) : M dmatrix :=
  emit (Product (content A) (content B)) ;;;
  if resident A || resident B then fail
  else ret {| content := mproduct (content A) (content B);
              resident := false |}.

Definition move_to_backend (A : dmatrix) : M dmatrix :=
  emit (MoveToBackend (content A)) ;;;
  ret {| content := content A; resident := true |}.

Definition backend_spmv (a : Z) (A : dmatrix) (x : list elt) (b : Z)
  (y : list elt) : M (list elt) :=
  emit (Spmv (content A)) ;;;
  if resident A then ret (spmv a (content A) x b y) else fail.

(** [partition] (lines 191-233).  The function returns the shared pointer
    [A] and updates [rhs] through its reference: the model returns both,
    and the matrix [J] as the function leaves it. *)
Record partitioned : Type := {
  out_A : dmatrix;
  out_rhs : list elt;
  out_J : option dmatrix
}.

Definition partition (size rank : Z) (Astrip : strip_t) (rhs : list elt)
  (p : ptype) (block_size : Z) : M partitioned :=
  A <- make_dmatrix size rank Astrip ;;
  if (size =? 1) || ptype_eqb p merge
  then ret {| out_A := A; out_rhs := rhs; out_J := None |}
  else
    emit (Tic "partition") ;;;
    I <- run_partitioner p 1 A block_size ;;
    J <- transpose I ;;
    AI <- product A I ;;
    A <- product J AI ;;
    let new_rhs := repeat zero (loc_rows (content J)) in
    J <- move_to_backend J ;;
    new_rhs <- backend_spmv 1 J rhs 0 new_rhs ;;
    emit (Toc "partition") ;;;
    ret {| out_A := A; out_rhs := new_rhs; out_J := Some J |}.

(** [c] is logged before [d]. *)
Definition before (c d : call) (log : list call) : Prop :=
  exists l1 l2 l3, log = l1 ++ c :: l2 ++ d :: l3.

End Backend.

Arguments Transpose {mat} m.
Arguments Product {mat} a b.
Arguments MoveToBackend {mat} m.
Arguments Spmv {mat} m.
Arguments before {mat} c d log.

End Partition.

(** A small backend to run [partition] on: dense integer matrices as lists
    of rows, every process holding the whole matrix. *)
Module DenseBackend.

Definition matrix : Type := list (list Z).

Definition dot (u v : list Z) : Z :=
  fold_right Z.add 0 (map (fun p => fst p * snd p) (combine u v)).

Definition column (m : matrix) (c : nat) : list Z :=
  map (fun row => nth c row 0) m.

Definition width (m : matrix) : nat :=
  match m with [] => 0%nat | row :: _ => length row end.

Definition transpose (m : matrix) : matrix :=
  map (column m) (seq 0 (width m)).

Definition product (a b : matrix) : matrix :=
  map (fun row => map (fun c => dot row (column b c)) (seq 0 (width b))) a.

(** [y := alpha * A * x + beta * y], entry by entry of [y]. *)
Definition spmv (alpha : Z) (a : matrix) (x : list Z) (beta : Z) (y : list Z)
  : list Z :=
  map (fun p => alpha * dot (nth (fst p) a []) x + beta * snd p)
      (combine (seq 0 (length y)) y).

(** A stand-in for a partitioner: the permutation that reverses the rows. *)
Definition reversal (n : nat) : matrix :=
  map (fun r => map (fun c => if (r + c =? n - 1)%nat then 1 else 0) (seq 0 n))
      (seq 0 n).

Definition partitioner (p : Partition.ptype) (a : matrix) (block_size : Z)
  : matrix :=
  reversal (length a).

Definition construct (size rank : Z) (strip : matrix) : matrix := strip.

Definition partition :=
  Partition.partition matrix matrix Z 0 construct partitioner transpose
    product (@length (list Z)) spmv.

End DenseBackend.

(* ================================================================== *)
(** ** Block-size dispatch in [main] *)

Module Dispatch.

(** The backend a build selects (lines 15-25). *)
Inductive backend : Type := BUILTIN | VEXCL | CUDA.

(** [AMGCL_BLOCK_SIZES] when the build does not define it (line 40). *)
Definition default_block_sizes : list Z := [3; 4].

(** What the [switch] does. *)
Inductive action : Type :=
| SolveBlock (B : Z)
| SolveScalar
| Print (message : string).

(** The block cases are compiled for the builtin and VexCL backends only
    (line 548). *)
Definition block_cases (be : backend) (block_sizes : list Z) : list Z :=
  match be with
  | BUILTIN | VEXCL => block_sizes
  | CUDA => []
  end.

(** The [switch] (lines 546-565): the block cases of [AMGCL_BLOCK_SIZES],
    then [case 1], then [default]. *)
Definition dispatch (be : backend) (block_sizes : list Z) (rank : Z)
  (block_size : Z) : list action :=
  if existsb (Z.eqb block_size) (block_cases be block_sizes)
  then [SolveBlock block_size]
  else if block_size =? 1 then [SolveScalar]
  else if rank =? 0 then [Print "Unsupported block size!"]
  else [].

(** The block sizes a build supports. *)
Definition supported (be : backend) (block_sizes : list Z) : list Z :=
  1 :: block_cases be block_sizes.

Definition is_solve (a : action) : bool :=
  match a with
  | SolveBlock _ | SolveScalar => true
  | Print _ => false
  end.

End Dispatch.

(* ================================================================== *)
(** ** The tutorial's diagonal scaling *)

Module Serena.

Local Open Scope float_scope.

(** [v[i]] and [v[i] = x] on a [std::vector]: an index outside the vector
    is undefined behaviour, here [None]. *)
Definition vget {A : Type} (v : list A) (i : Z) : option A :=
  if (i <? 0)%Z then None else nth_error v (Z.to_nat i).

Definition vset {A : Type} (v : list A) (i : Z) (x : A) : option (list A) :=
  if ((0 <=? i) && (i <? Z.of_nat (length v)))%Z
  then Some (firstn (Z.to_nat i) v ++ x :: skipn (S (Z.to_nat i)) v)
  else None.

(** The three vectors the scaling step fills. *)
Record diagonal : Type := {
  dia : list float;
  d_ptr : list Z;
  d_col : list Z
}.

(** The inner loop (lines 87-92), [count] positions from [j]: the scaling
    factor of the first entry of the row whose column is [I], if there is
    one.  [col[j] == I] compares a [ptrdiff_t] with a [size_t], so [col[j]]
    is converted to [size_t]. *)
Fixpoint find_diagonal (count : nat) (j : Z) (I : Z) (a : arrays)
  : option (option float) :=
  match count with
  | O => Some None
  | S count' =>
      match vget (col a) j with
      | None => None
      | Some c =>
          if (to_size c =? I)%Z
          then match vget (val a) j with
               | None => None
               | Some v => Some (Some (to_double 1 / sqrt v))
               end
          else find_diagonal count' (padd j 1) I a
      end
  end.

(** The body of the outer loop (lines 85-92). *)
Definition scale_row (a : arrays) (i I : Z) (d : diagonal) : option diagonal :=
  match vset (d_ptr d) i (to_ptrdiff i) with
  | None => None
  | Some d_ptr' =>
      match vset (d_col d) i (to_ptrdiff I) with
      | None => None
      | Some d_col' =>
          match vget (ptr a) i, vget (ptr a) (uadd i 1) with
          | Some j, Some e =>
              match find_diagonal (Z.to_nat (e - j)) j I a with
              | None => None
              | Some None =>
                  Some {| dia := dia d; d_ptr := d_ptr'; d_col := d_col' |}
              | Some (Some s) =>
                  match vset (dia d) i s with
                  | None => None
                  | Some dia' =>
                      Some {| dia := dia'; d_ptr := d_ptr'; d_col := d_col' |}
                  end
              end
          | _, _ => None
          end
      end
  end.

(** [for (size_t i = 0, I = row_beg; i < chunk; ++i, ++I)], [count]
    iterations from [i] and [I]. *)
Fixpoint scale_loop (count : nat) (a : arrays) (i I : Z) (d : diagonal)
  : option diagonal :=
  match count with
  | O => Some d
  | S count' =>
      match scale_row a i I d with
      | None => None
      | Some d' => scale_loop count' a (uadd i 1) (uadd I 1) d'
      end
  end.

(** Lines 82-94: the vectors as declared, the loop, and
    [d_ptr.back() = chunk]. *)
Definition scale (row_beg chunk : Z) (a : arrays) : option diagonal :=
  let d := {| dia := repeat 1 (Z.to_nat chunk);
              d_ptr := repeat 0%Z (Z.to_nat (uadd chunk 1));
              d_col := repeat 0%Z (Z.to_nat chunk) |} in
  match scale_loop (Z.to_nat chunk) a 0 row_beg d with
  | None => None
  | Some d =>
      match vset (d_ptr d) (Z.of_nat (length (d_ptr d)) - 1) (to_ptrdiff chunk) with
      | None => None
      | Some d_ptr' => Some {| dia := dia d; d_ptr := d_ptr'; d_col := d_col d |}
      end
  end.

(** The diagonal matrix handed to [distributed_matrix], as a strip. *)
Definition diagonal_strip (d : diagonal) : arrays :=
  {| ptr := d_ptr d; col := d_col d; val := dia d |}.

(** The scaling factor of local row [r], said directly: from the
    stored entry of the row with the row's own global index as its column,
    and 1 when the row stores none. *)
Definition scaling_factor (a : arrays) (r : nat) (I : Z) : float :=
  match find (fun e => (fst e =? I)%Z) (row_of a r) with
  | Some (_, v) => to_double 1 / sqrt v
  | None => 1
  end.

(** The three vectors when the first [i] rows are done. *)
Definition filled (a : arrays) (row_beg chunk : Z) (i : nat) : diagonal :=
  {| dia := map (fun r => scaling_factor a r (row_beg + Z.of_nat r)) (seq 0 i)
            ++ repeat 1 (Z.to_nat chunk - i);
     d_ptr := map Z.of_nat (seq 0 i) ++ repeat 0%Z (S (Z.to_nat chunk) - i);
     d_col := map (fun r => (row_beg + Z.of_nat r)%Z) (seq 0 i)
              ++ repeat 0%Z (Z.to_nat chunk - i) |}.

(** Three rows from global row 3 on; the second stores no diagonal entry. *)
Definition sample_strip : arrays :=
  {| ptr := [0; 2; 3; 5]%Z; col := [3; 4; 5; 5; 4]%Z; val := [4; 1; 2; 16; 9]%float |}.

End Serena.


(* ================================================================== *)
(** ** The whole matrix, over all ranks *)

Module Global.

Import Range Poisson.

(** The number of rows of a range. *)
Definition range_size (be : Z * Z) : Z := snd be - fst be.

Definition total (l : list Z) : Z := fold_right Z.add 0 l.

(** The rows of an assembled problem, first local row first. *)
Definition rows_of (x : assembled) : list (list (Z * float)) :=
  map (row_of (strip x)) (seq 0 (Z.to_nat (chunk x))).

(** What the ranks [0 .. size-1] assemble, put together in rank order: the
    rows, and the right-hand side. *)
Definition gather_rows (size n block_size : Z) : list (list (Z * float)) :=
  concat (map (fun r => rows_of (assemble_poisson3d size (Z.of_nat r) n block_size))
              (seq 0 (Z.to_nat size))).

Definition gather_rhs (size n block_size : Z) : list float :=
  concat (map (fun r => rhs (assemble_poisson3d size (Z.of_nat r) n block_size))
              (seq 0 (Z.to_nat size))).

End Global.

(* ================================================================== *)
(** * Properties *)

(** ** Machine integers *)

Module MachineFacts.

Lemma to_ptrdiff_id z : is_ptrdiff z -> to_ptrdiff z = z.
Proof.
  unfold is_ptrdiff, PTRDIFF_MIN, PTRDIFF_MAX, to_ptrdiff. intros H.
  rewrite Z.mod_small; lia.
Qed.

Lemma to_size_id z : is_size z -> to_size z = z.
Proof.
  unfold is_size, SIZE_MAX, to_size. intros H. apply Z.mod_small. lia.
Qed.

Lemma to_int_id z : is_int z -> to_int z = z.
Proof.
  unfold is_int, INT_MIN, INT_MAX, to_int. intros H.
  rewrite Z.mod_small; lia.
Qed.

Lemma to_ptrdiff_range z : is_ptrdiff (to_ptrdiff z).
Proof.
  unfold is_ptrdiff, PTRDIFF_MIN, PTRDIFF_MAX, to_ptrdiff.
  pose proof (Z.mod_pos_bound (z + 2 ^ 63) (2 ^ 64)). lia.
Qed.

Lemma to_size_range z : is_size (to_size z).
Proof.
  unfold is_size, SIZE_MAX, to_size.
  pose proof (Z.mod_pos_bound z (2 ^ 64)). lia.
Qed.

(** A [ptrdiff_t] converted to [size_t] equals a small [size_t] only when it
    is that number. *)
Lemma to_size_eq_small c I :
  is_ptrdiff c -> 0 <= I <= PTRDIFF_MAX -> (to_size c = I <-> c = I).
Proof.
  unfold is_ptrdiff, PTRDIFF_MIN, PTRDIFF_MAX, to_size. intros Hc HI.
  split; intros H; [ | subst; apply Z.mod_small; lia ].
  destruct (Z_lt_le_dec c 0) as [Hn | Hp].
  - assert (E : c mod 2 ^ 64 = c + 2 ^ 64).
    { symmetry. apply (Z.mod_unique c (2 ^ 64) (-1)); lia. }
    lia.
  - rewrite Z.mod_small in H; lia.
Qed.


Lemma padd_id a b : is_ptrdiff (a + b) -> padd a b = a + b.
Proof. apply to_ptrdiff_id. Qed.

Lemma psub_id a b : is_ptrdiff (a - b) -> psub a b = a - b.
Proof. apply to_ptrdiff_id. Qed.

Lemma pmul_id a b : is_ptrdiff (a * b) -> pmul a b = a * b.
Proof. apply to_ptrdiff_id. Qed.

(** On non-negative operands the truncating division is the flooring one. *)
Lemma pdiv_id a b : 0 <= a <= PTRDIFF_MAX -> 0 < b -> pdiv a b = a / b.
Proof.
  intros Ha Hb. unfold pdiv. rewrite Z.quot_div_nonneg by lia.
  apply to_ptrdiff_id. unfold is_ptrdiff, PTRDIFF_MIN, PTRDIFF_MAX in *.
  pose proof (Z.div_pos a b). pose proof (Z.div_le_upper_bound a b a).
  assert (a / b <= a) by (apply Z.div_le_upper_bound; nia). lia.
Qed.

Lemma prem_id a b : 0 <= a -> 0 < b -> prem a b = a mod b.
Proof. intros. unfold prem. apply Z.rem_mod_nonneg; lia. Qed.

End MachineFacts.

(** ** Row ranges *)

Module RangeFacts.

Import Range MachineFacts.

Lemma ceil_div_bounds N P :
  1 <= P -> (ceil_div N P - 1) * P < N <= ceil_div N P * P.
Proof.
  intros HP. unfold ceil_div.
  pose proof (Z.div_mod (- N) P) as E.
  pose proof (Z.mod_pos_bound (- N) P). nia.
Qed.

(** [ceil_div N P] is the least [c] with [N <= c * P]. *)
Lemma ceil_div_least N P c : 1 <= P -> N <= c * P -> ceil_div N P <= c.
Proof.
  intros HP H. pose proof (ceil_div_bounds N P HP). nia.
Qed.

Lemma ceil_div_code N P :
  0 <= N -> 1 <= P -> (N + P - 1) / P = ceil_div N P.
Proof.
  intros HN HP. pose proof (ceil_div_bounds N P HP) as [H1 H2].
  symmetry. apply (Z.div_unique_pos _ _ _ (N + P - 1 - ceil_div N P * P)); nia.
Qed.

Lemma ceil_div_nonneg N P : 0 <= N -> 1 <= P -> 0 <= ceil_div N P <= N.
Proof.
  intros HN HP. pose proof (ceil_div_bounds N P HP). split; nia.
Qed.

Lemma round_up_bounds c a :
  1 <= a -> c <= round_up c a < c + a /\ round_up c a mod a = 0.
Proof.
  intros Ha. unfold round_up.
  pose proof (Z.div_mod c a). pose proof (Z.mod_pos_bound c a).
  destruct (Z.eqb_spec (c mod a) 0) as [E | E].
  - lia.
  - split; [ nia | apply Z.mod_mul; lia ].
Qed.

(** [round_up c a] is the least multiple of [a] from [c] on. *)
Lemma round_up_least c a m :
  1 <= a -> c <= m -> m mod a = 0 -> round_up c a <= m.
Proof.
  intros Ha Hc Hm. pose proof (round_up_bounds c a Ha) as [[H1 H2] H3].
  apply Z.mod_divide in Hm; [ | lia ]. apply Z.mod_divide in H3; [ | lia ].
  destruct Hm as [q ->]. destruct H3 as [q' E]. rewrite E in *.
  destruct (Z_le_gt_dec q' q) as [L | G]; [ nia | ].
  assert (q * a + a <= q' * a) by nia. lia.
Qed.

Lemma round_up_code c a :
  1 <= a -> 0 <= c ->
  (if negb (c mod a =? 0) then c + (a - c mod a) else c) = round_up c a.
Proof.
  intros Ha Hc. unfold round_up.
  pose proof (Z.div_mod c a). pose proof (Z.mod_pos_bound c a).
  destruct (Z.eqb_spec (c mod a) 0); simpl; nia.
Qed.

Lemma aligned_chunk_bounds N P align :
  0 <= N -> 1 <= P -> 1 <= align ->
  let chunk := aligned_chunk N P align in
  0 <= chunk <= N + align - 1 /\ N <= chunk * P /\ chunk mod align = 0
  /\ (0 < N -> 0 < chunk) /\ chunk * P < N + P + align * P.
Proof.
  intros HN HP Ha. unfold aligned_chunk. cbv zeta.
  pose proof (ceil_div_bounds N P HP) as [H1 H2].
  pose proof (ceil_div_nonneg N P HN HP).
  pose proof (round_up_bounds (ceil_div N P) align Ha) as [[H3 H4] H5].
  repeat split; try lia; try nia.
Qed.

(** Under [fits], [row_range] is the computation of the specification. *)
Lemma row_range_assign N P rank align :
  fits N P rank align -> row_range N P rank align = assign N P rank align.
Proof.
  intros [HN HP Hr Ha]. unfold MAX_ROWS, INT_MAX in *.
  pose proof (aligned_chunk_bounds N P align) as Hc.
  unfold row_range, assign. cbv zeta in Hc.
  destruct Hc as (Hc1 & Hc2 & Hc3 & Hc4 & Hc5); try lia.
  pose proof (ceil_div_nonneg N P) as Hd.
  assert (E0 : pdiv (psub (padd N P) 1) P = ceil_div N P).
  { rewrite padd_id, psub_id by (unfold is_ptrdiff, PTRDIFF_MIN, PTRDIFF_MAX; lia).
    rewrite pdiv_id by (unfold PTRDIFF_MAX; lia).
    apply ceil_div_code; lia. }
  rewrite E0.
  assert (E1 : (if negb (prem (ceil_div N P) align =? 0)
                then padd (ceil_div N P) (psub align (prem (ceil_div N P) align))
                else ceil_div N P) = aligned_chunk N P align).
  { unfold aligned_chunk. rewrite <- round_up_code by lia.
    rewrite prem_id by lia.
    pose proof (Z.mod_pos_bound (ceil_div N P) align).
    destruct (negb (ceil_div N P mod align =? 0)); [ | reflexivity ].
    rewrite psub_id, padd_id
      by (unfold is_ptrdiff, PTRDIFF_MIN, PTRDIFF_MAX; lia).
    reflexivity. }
  rewrite E1. set (chunk := aligned_chunk N P align) in *.
  assert (0 <= chunk * rank <= chunk * P) by nia.
  rewrite pmul_id by (unfold is_ptrdiff, PTRDIFF_MIN, PTRDIFF_MAX; nia).
  rewrite padd_id by (unfold is_ptrdiff, PTRDIFF_MIN, PTRDIFF_MAX; lia).
  reflexivity.
Qed.

(** The tutorial's unsigned computation agrees with it at [align = 3]. *)
Lemma serena_row_range_assign N P rank :
  fits N P rank B -> serena_row_range N P rank = assign N P rank B.
Proof.
  intros [HN HP Hr Ha]. unfold MAX_ROWS, INT_MAX, B in *.
  pose proof (aligned_chunk_bounds N P 3) as Hc.
  unfold serena_row_range, assign, B. cbv zeta in Hc.
  destruct Hc as (Hc1 & Hc2 & Hc3 & Hc4 & Hc5); try lia.
  pose proof (ceil_div_nonneg N P) as Hd.
  assert (E0 : udiv (usub (uadd N P) 1) P = ceil_div N P).
  { unfold uadd, usub, udiv.
    rewrite (to_size_id (N + P)) by (unfold is_size, SIZE_MAX; lia).
    rewrite to_size_id by (unfold is_size, SIZE_MAX; lia).
    apply ceil_div_code; lia. }
  rewrite E0.
  assert (E1 : (if negb (urem (ceil_div N P) 3 =? 0)
                then uadd (ceil_div N P) (usub 3 (urem (ceil_div N P) 3))
                else ceil_div N P) = aligned_chunk N P 3).
  { unfold aligned_chunk. rewrite <- round_up_code by lia.
    unfold urem, uadd, usub.
    pose proof (Z.mod_pos_bound (ceil_div N P) 3).
    destruct (negb (ceil_div N P mod 3 =? 0)); [ | reflexivity ].
    rewrite (to_size_id (3 - _)) by (unfold is_size, SIZE_MAX; lia).
    rewrite to_size_id by (unfold is_size, SIZE_MAX; lia).
    reflexivity. }
  rewrite E1. set (chunk := aligned_chunk N P 3) in *.
  assert (0 <= chunk * rank <= chunk * P) by nia.
  unfold umul, uadd.
  rewrite to_size_id by (unfold is_size, SIZE_MAX; nia).
  rewrite to_size_id by (unfold is_size, SIZE_MAX; lia).
  reflexivity.
Qed.

(** Consecutive ranges of [assign] meet, the first starts at 0 and the last
    ends at [N]. *)
Section Assign.

Variables N P align : Z.
Hypothesis HN : 0 <= N.
Hypothesis HP : 1 <= P.
Hypothesis Ha : 1 <= align.

Let chunk := aligned_chunk N P align.

Lemma assign_first : fst (assign N P 0 align) = 0.
Proof. unfold assign. cbn [fst]. rewrite Z.mul_0_r. lia. Qed.

Lemma assign_ordered r :
  0 <= r -> fst (assign N P r align) <= snd (assign N P r align) <= N.
Proof.
  intros Hr. pose proof (aligned_chunk_bounds N P align HN HP Ha) as (H1 & _).
  unfold assign. cbn [fst snd]. fold chunk in H1 |- *.
  assert (0 <= chunk * r) by nia. lia.
Qed.

Lemma assign_contiguous r :
  0 <= r -> snd (assign N P r align) = fst (assign N P (r + 1) align).
Proof.
  intros Hr. pose proof (aligned_chunk_bounds N P align HN HP Ha) as (H1 & _).
  unfold assign. cbn [fst snd]. fold chunk in H1 |- *.
  replace (chunk * (r + 1)) with (chunk * r + chunk) by ring. lia.
Qed.

Lemma assign_last : snd (assign N P (P - 1) align) = N.
Proof.
  pose proof (aligned_chunk_bounds N P align HN HP Ha) as (H1 & H2 & _).
  unfold assign. cbn [fst snd]. fold chunk in H1, H2 |- *.
  assert (chunk * (P - 1) + chunk = chunk * P) by ring. lia.
Qed.

Lemma assign_empty r :
  0 <= r -> fst (assign N P r align) = snd (assign N P r align) ->
  assign N P r align = (N, N).
Proof.
  intros Hr. pose proof (aligned_chunk_bounds N P align HN HP Ha)
    as (H1 & H2 & H3 & H4 & _).
  unfold assign. cbn [fst snd]. fold chunk in H1, H2, H4 |- *.
  intros E. assert (0 <= chunk * r) by nia.
  assert (Z.min N (chunk * r) = N) by lia.
  f_equal; lia.
Qed.

Lemma assign_after_end r r' :
  0 <= r <= r' -> snd (assign N P r align) = N -> r < r' ->
  assign N P r' align = (N, N).
Proof.
  intros Hr E Hlt. pose proof (aligned_chunk_bounds N P align HN HP Ha)
    as (H1 & H2 & H3 & H4 & _).
  unfold assign in *. cbn [fst snd] in *. fold chunk in H1, H2, H4, E |- *.
  assert (0 <= chunk * r) by nia.
  assert (chunk * r + chunk <= chunk * r') by nia.
  f_equal; lia.
Qed.

Lemma assign_length r :
  0 <= r ->
  (snd (assign N P r align) - fst (assign N P r align)) mod align = 0
  \/ (fst (assign N P r align) < snd (assign N P r align)
      /\ snd (assign N P r align) = N).
Proof.
  intros Hr. pose proof (aligned_chunk_bounds N P align HN HP Ha)
    as (H1 & H2 & H3 & H4 & _).
  unfold assign. cbn [fst snd]. fold chunk in H1, H2, H3, H4 |- *.
  assert (0 <= chunk * r) by nia.
  destruct (Z_le_gt_dec (chunk * r + chunk) N) as [L | G].
  - left. replace (Z.min N (Z.min N (chunk * r) + chunk) - Z.min N (chunk * r))
      with chunk by lia. exact H3.
  - destruct (Z_le_gt_dec N (chunk * r)) as [L' | G'].
    + left. replace (Z.min N (Z.min N (chunk * r) + chunk) - Z.min N (chunk * r))
        with 0 by lia. apply Z.mod_0_l. lia.
    + right. lia.
Qed.

Lemma assign_owner x :
  0 <= x < N ->
  exists r, (0 <= r < P
             /\ fst (assign N P r align) <= x < snd (assign N P r align))
    /\ forall r', 0 <= r' < P ->
          fst (assign N P r' align) <= x < snd (assign N P r' align) ->
          r' = r.
Proof.
  intros Hx. pose proof (aligned_chunk_bounds N P align HN HP Ha)
    as (H1 & H2 & H3 & H4 & _).
  fold chunk in H1, H2, H4. assert (Hc : 0 < chunk) by lia.
  pose proof (Z.div_mod x chunk) as E. pose proof (Z.mod_pos_bound x chunk) as Hm.
  assert (Hq : 0 <= x / chunk) by (apply Z.div_pos; lia).
  exists (x / chunk). unfold assign. cbn [fst snd]. fold chunk.
  split; [ split | ].
  - split; [ lia | ]. nia.
  - lia.
  - intros r' Hr' Hin. assert (0 <= chunk * r') by nia.
    assert (chunk * r' <= x < chunk * r' + chunk) by lia. nia.
Qed.

End Assign.

End RangeFacts.

(** ** Strips built row by row *)

Module CrsFacts.

Lemma offsets_snoc rows r :
  offsets (rows ++ [r])
  = offsets rows ++ [Z.of_nat (length (concat rows) + length r)].
Proof.
  unfold offsets. rewrite length_app. cbn [length].
  replace (S (length rows + 1)) with (S (S (length rows))) by lia.
  rewrite (seq_S (S (length rows))), map_app. cbn [map Nat.add].
  f_equal.
  - apply map_ext_in. intros k Hk. apply in_seq in Hk.
    rewrite firstn_app. replace (k - length rows)%nat with 0%nat by lia.
    cbn [firstn]. rewrite app_nil_r. reflexivity.
  - rewrite firstn_all2 by (rewrite length_app; cbn; lia).
    rewrite concat_app, length_app. cbn [concat]. rewrite app_nil_r.
    reflexivity.
Qed.

Lemma append_row_crs rows r :
  append_row (crs_of rows) r = crs_of (rows ++ [r]).
Proof.
  unfold append_row, crs_of. cbn [ptr col val].
  rewrite offsets_snoc, concat_app, !map_app, length_map.
  cbn [concat]. rewrite app_nil_r. reflexivity.
Qed.

Lemma append_rows_crs rows2 : forall rows1,
  append_rows (crs_of rows1) rows2 = crs_of (rows1 ++ rows2).
Proof.
  unfold append_rows. induction rows2 as [ | r rows2 IH]; intros rows1.
  - rewrite app_nil_r. reflexivity.
  - cbn [fold_left]. rewrite append_row_crs, IH, <- app_assoc. reflexivity.
Qed.

Lemma crs_of_nil : crs_of [] = {| ptr := [0]; col := []; val := [] |}.
Proof. reflexivity. Qed.

Lemma offsets_length rows : length (offsets rows) = S (length rows).
Proof. unfold offsets. rewrite length_map, length_seq. reflexivity. Qed.

Lemma offsets_nth rows k :
  (k <= length rows)%nat ->
  nth k (offsets rows) 0 = Z.of_nat (length (concat (firstn k rows))).
Proof.
  intros Hk. unfold offsets.
  set (f := fun k => Z.of_nat (length (concat (firstn k rows)))).
  rewrite (nth_indep _ 0 (f 0%nat)) by (rewrite length_map, length_seq; lia).
  rewrite map_nth, seq_nth by lia. reflexivity.
Qed.

Lemma combine_fst_snd {A B : Type} (l : list (A * B)) :
  combine (map fst l) (map snd l) = l.
Proof.
  induction l as [ | [x y] l IH]; cbn; [ reflexivity | now rewrite IH ].
Qed.

Lemma firstn_S_concat (rows : list (list (Z * float))) k :
  (k < length rows)%nat ->
  concat (firstn (S k) rows) = concat (firstn k rows) ++ nth k rows [].
Proof.
  revert k. induction rows as [ | r rows IH]; intros k Hk; cbn in Hk; [ lia | ].
  destruct k as [ | k].
  - cbn. now rewrite app_nil_r.
  - change (firstn (S (S k)) (r :: rows)) with (r :: firstn (S k) rows).
    change (firstn (S k) (r :: rows)) with (r :: firstn k rows).
    change (nth (S k) (r :: rows) []) with (nth k rows []).
    cbn [concat]. rewrite (IH k) by lia. now rewrite app_assoc.
Qed.

Lemma concat_split (rows : list (list (Z * float))) k :
  (k < length rows)%nat ->
  concat rows
  = concat (firstn k rows) ++ nth k rows [] ++ concat (skipn (S k) rows).
Proof.
  intros Hk. rewrite <- (firstn_skipn (S k) rows) at 1.
  rewrite concat_app, firstn_S_concat by exact Hk.
  now rewrite app_assoc.
Qed.

(** The rows of [crs_of rows] are [rows]. *)
Lemma row_of_crs rows k :
  (k < length rows)%nat -> row_of (crs_of rows) k = nth k rows [].
Proof.
  intros Hk. unfold row_of, crs_of. cbn [ptr col val].
  rewrite !offsets_nth by lia. rewrite combine_fst_snd.
  rewrite firstn_S_concat by exact Hk. rewrite length_app.
  rewrite Nat2Z.id.
  replace (Z.to_nat (Z.of_nat (length (concat (firstn k rows)) + length (nth k rows []))
                     - Z.of_nat (length (concat (firstn k rows)))))
    with (length (nth k rows [])) by lia.
  rewrite (concat_split rows k Hk) at 1.
  rewrite skipn_app, skipn_all, Nat.sub_diag. cbn [skipn app].
  rewrite firstn_app, firstn_all, Nat.sub_diag. cbn [firstn].
  now rewrite app_nil_r.
Qed.

Lemma offsets_monotone rows k :
  (k < length rows)%nat -> nth k (offsets rows) 0 <= nth (S k) (offsets rows) 0.
Proof.
  intros Hk. rewrite !offsets_nth by lia. rewrite firstn_S_concat by exact Hk.
  rewrite length_app. lia.
Qed.

End CrsFacts.

(** ** The synthetic problem *)

Module PoissonFacts.

Import Range Poisson MachineFacts RangeFacts CrsFacts.

Lemma grid_side n : grid n -> 2 <= n < 2 ^ 21.
Proof.
  unfold grid, MAX_ROWS. intros [H2 H3]. split; [ exact H2 | ].
  destruct (Z_lt_le_dec n (2 ^ 21)) as [L | G]; [ exact L | exfalso ].
  assert (2 ^ 21 * 2 ^ 21 <= n * n) by nia.
  assert (2 ^ 21 * 2 ^ 21 * 2 ^ 21 <= n * n * n) by nia.
  lia.
Qed.

(** A row index splits into its three grid coordinates. *)
Lemma coordinates n idx :
  1 <= n -> 0 <= idx < n * n * n ->
  let k := idx / (n * n) in
  let j := (idx / n) mod n in
  let i := idx mod n in
  idx = k * (n * n) + j * n + i
  /\ 0 <= i < n /\ 0 <= j < n /\ 0 <= k < n /\ idx / n = k * n + j.
Proof.
  intros Hn Hidx. cbv zeta.
  pose proof (Z.div_mod idx n) as E1. pose proof (Z.mod_pos_bound idx n) as B1.
  pose proof (Z.div_mod (idx / n) n) as E2.
  pose proof (Z.mod_pos_bound (idx / n) n) as B2.
  assert (E3 : idx / n / n = idx / (n * n)) by (apply Z.div_div; lia).
  rewrite E3 in E2.
  assert (0 <= idx / (n * n)) by (apply Z.div_pos; nia).
  assert (idx / (n * n) < n).
  { apply Z.div_lt_upper_bound; nia. }
  repeat split; try lia; nia.
Qed.

Lemma grid_steps n :
  grid n -> is_ptrdiff (n * n) /\ is_ptrdiff (n * n * n) /\ n < n * n
            /\ n * n <= n * n * n /\ is_ptrdiff ((n - 1) * (n - 1))
            /\ is_ptrdiff (n - 1).
Proof.
  intros G. pose proof (grid_side n G) as S. destruct G as [H2 H3].
  unfold MAX_ROWS, is_ptrdiff, PTRDIFF_MIN, PTRDIFF_MAX in *.
  assert (n < n * n) by nia. assert (n * n <= n * n * n) by nia.
  assert (0 <= (n - 1) * (n - 1) <= n * n) by nia.
  repeat split; lia.
Qed.

(** One row of the loop appends the stencil of its row index. *)
Lemma row_step_stencil n idx a :
  grid n -> 0 <= idx < n * n * n ->
  row_step n (to_double (pmul (psub n 1) (psub n 1))) idx a
  = append_row a (stencil n idx).
Proof.
  intros G Hidx. pose proof (grid_steps n G) as (S1 & S2 & S3 & S4 & S5 & S6).
  pose proof G as [H2 H3]. unfold MAX_ROWS in H3.
  pose proof (coordinates n idx ltac:(lia) Hidx) as C. cbv zeta in C.
  destruct C as (E & Hi & Hj & Hk & Eq).
  unfold row_step, stencil.
  rewrite (psub_id n 1) by exact S6.
  rewrite (pmul_id (n - 1)) by exact S5.
  rewrite (pmul_id n n) by exact S1.
  unfold is_ptrdiff, PTRDIFF_MIN, PTRDIFF_MAX in *.
  rewrite (pdiv_id idx (n * n)) by (unfold PTRDIFF_MAX; lia).
  rewrite (pdiv_id idx n) by (unfold PTRDIFF_MAX; lia).
  assert (0 <= idx / n) by (apply Z.div_pos; lia).
  rewrite (prem_id (idx / n) n), (prem_id idx n) by lia.
  set (k := idx / (n * n)) in *. set (j := (idx / n) mod n) in *.
  set (i := idx mod n) in *. set (h2i := to_double ((n - 1) * (n - 1))).
  assert (Ik : (k >? 0) = in_grid n (k - 1)) by (unfold in_grid; lia).
  assert (Ij : (j >? 0) = in_grid n (j - 1)) by (unfold in_grid; lia).
  assert (Ii : (i >? 0) = in_grid n (i - 1)) by (unfold in_grid; lia).
  rewrite !padd_id
    by (unfold is_ptrdiff, PTRDIFF_MIN, PTRDIFF_MAX; lia).
  rewrite !psub_id
    by (unfold is_ptrdiff, PTRDIFF_MIN, PTRDIFF_MAX; lia).
  assert (Ji : (i + 1 <? n) = in_grid n (i + 1)) by (unfold in_grid; lia).
  assert (Jj : (j + 1 <? n) = in_grid n (j + 1)) by (unfold in_grid; lia).
  assert (Jk : (k + 1 <? n) = in_grid n (k + 1)) by (unfold in_grid; lia).
  rewrite Ik, Ij, Ii, Ji, Jj, Jk. unfold neighbour.
  replace (idx - n * n) with (idx + - (n * n)) by lia.
  replace (idx - n) with (idx + - n) by lia.
  replace (idx - 1) with (idx + - 1) by lia.
  unfold append_row, push_entry, push_back.
  destruct (in_grid n (k - 1)), (in_grid n (j - 1)), (in_grid n (i - 1)),
    (in_grid n (i + 1)), (in_grid n (j + 1)), (in_grid n (k + 1));
    cbn [ptr col val app map fst snd length];
    rewrite <- ?app_assoc; cbn [app]; rewrite length_app; reflexivity.
Qed.

Lemma rows_from_S idx count :
  rows_from idx (S count) = idx :: rows_from (idx + 1) count.
Proof.
  unfold rows_from. cbn [seq map]. f_equal; [ lia | ].
  rewrite <- seq_shift, map_map. apply map_ext. intros k. lia.
Qed.

Lemma rows_from_length idx count : length (rows_from idx count) = count.
Proof. unfold rows_from. now rewrite length_map, length_seq. Qed.

Lemma rows_from_nth idx count k :
  (k < count)%nat -> nth k (rows_from idx count) 0 = idx + Z.of_nat k.
Proof.
  intros Hk. unfold rows_from. set (f := fun k => idx + Z.of_nat k).
  rewrite (nth_indep _ 0 (f 0%nat)) by (rewrite length_map, length_seq; lia).
  rewrite map_nth, seq_nth by lia. reflexivity.
Qed.

Lemma rows_loop_stencil n count : forall idx a,
  grid n -> 0 <= idx -> idx + Z.of_nat count <= n * n * n ->
  rows_loop count n (to_double (pmul (psub n 1) (psub n 1))) idx a
  = append_rows a (map (stencil n) (rows_from idx count)).
Proof.
  induction count as [ | count IH]; intros idx a G H0 H1.
  - reflexivity.
  - cbn [rows_loop]. rewrite rows_from_S. cbn [map].
    unfold append_rows. cbn [fold_left].
    rewrite row_step_stencil by (try exact G; lia).
    destruct G as [G2 G3]. unfold MAX_ROWS in G3.
    rewrite padd_id by (unfold is_ptrdiff, PTRDIFF_MIN, PTRDIFF_MAX; lia).
    apply IH; [ split; assumption | lia | lia ].
Qed.

(** What [assemble_poisson3d] returns, in one equation. *)
Lemma assemble_poisson3d_rows n P rank align :
  grid n -> fits (n * n * n) P rank align ->
  let row_beg := fst (row_range (n * n * n) P rank align) in
  let row_end := snd (row_range (n * n * n) P rank align) in
  0 <= row_beg <= row_end /\ row_end <= n * n * n
  /\ assemble_poisson3d P rank n align
     = {| chunk := row_end - row_beg;
          strip := crs_of (map (stencil n)
                             (rows_from row_beg (Z.to_nat (row_end - row_beg))));
          rhs := repeat 1%float (Z.to_nat (row_end - row_beg)) |}.
Proof.
  intros G F. cbv zeta. pose proof (grid_steps n G) as (S1 & S2 & _).
  pose proof F as [FN FP Fr Fa]. unfold MAX_ROWS in FN.
  unfold assemble_poisson3d.
  rewrite (pmul_id n n), pmul_id by assumption.
  rewrite (row_range_assign _ _ _ _ F).
  pose proof (assign_ordered (n * n * n) P align ltac:(lia) ltac:(lia)
                ltac:(lia) rank ltac:(lia)) as [O1 O2].
  assert (O0 : 0 <= fst (assign (n * n * n) P rank align)).
  { unfold assign. cbn [fst].
    pose proof (aligned_chunk_bounds (n * n * n) P align) as B. cbv zeta in B.
    assert (0 <= aligned_chunk (n * n * n) P align * rank) by nia. lia. }
  destruct (assign (n * n * n) P rank align) as [b e]. cbn [fst snd] in *.
  split; [ lia | split; [ lia | ] ].
  rewrite psub_id by (unfold is_ptrdiff, PTRDIFF_MIN, PTRDIFF_MAX; lia).
  rewrite rows_loop_stencil by (try exact G; lia).
  rewrite <- crs_of_nil, append_rows_crs. reflexivity.
Qed.

(** The columns of a stencil row go up, and lie in the matrix. *)
Lemma stencil_increasing n idx :
  2 <= n -> StronglySorted Z.lt (map fst (stencil n idx)).
Proof.
  intros Hn. assert (n < n * n) by nia. unfold stencil, neighbour.
  generalize dependent (n * n). intros nn Hnn.
  destruct (in_grid n (idx / nn - 1)), (in_grid n ((idx / n) mod n - 1)),
    (in_grid n (idx mod n - 1)), (in_grid n (idx mod n + 1)),
    (in_grid n ((idx / n) mod n + 1)), (in_grid n (idx / nn + 1));
    cbn [app map fst];
    repeat (apply SSorted_cons; [ | repeat (apply Forall_cons; [ lia | ]);
                                    apply Forall_nil ]);
    apply SSorted_nil.
Qed.

Lemma stencil_columns n idx :
  1 <= n -> 0 <= idx < n * n * n ->
  Forall (fun c => 0 <= c < n * n * n) (map fst (stencil n idx)).
Proof.
  intros Hn Hidx. pose proof (coordinates n idx Hn Hidx) as C. cbv zeta in C.
  destruct C as (E & Hi & Hj & Hk & Eq). unfold stencil, neighbour, in_grid.
  set (k := idx / (n * n)) in *. set (j := (idx / n) mod n) in *.
  set (i := idx mod n) in *.
  destruct (Z.leb_spec 0 (k - 1)), (Z.ltb_spec (k - 1) n),
    (Z.leb_spec 0 (j - 1)), (Z.ltb_spec (j - 1) n),
    (Z.leb_spec 0 (i - 1)), (Z.ltb_spec (i - 1) n),
    (Z.leb_spec 0 (i + 1)), (Z.ltb_spec (i + 1) n),
    (Z.leb_spec 0 (j + 1)), (Z.ltb_spec (j + 1) n),
    (Z.leb_spec 0 (k + 1)), (Z.ltb_spec (k + 1) n);
    cbn [andb app map fst]; try lia;
    repeat (apply Forall_cons; [ nia | ]); apply Forall_nil.
Qed.

End PoissonFacts.

(** ** Row ranges against the specification *)

Module RangeSpec.

Import Range Poisson MachineFacts RangeFacts CrsFacts PoissonFacts.

(** C1.  For a row count [N], a process count [P], a rank and an alignment
    that [fits] admits, [row_range] computes [chunk = ceil (N / P)] rounded
    up to the next multiple of [align], [row_beg = min (N, chunk * rank)]
    and [row_end = min (N, row_beg + chunk)]; the tutorial's computation is
    the same at its alignment 3.  For [N = 100], [P = 3], [align = 4] the
    chunk is 34 rounded up to 36, and the ranges of ranks 0, 1, 2 are
    [0, 36), [36, 72), [72, 100). *)
Theorem row_range_formula :
  (forall N P rank align,
     fits N P rank align ->
     let c := ceil_div N P in
     let chunk := aligned_chunk N P align in
     let row_beg := Z.min N (chunk * rank) in
     let row_end := Z.min N (row_beg + chunk) in
     ((c - 1) * P < N <= c * P)
     /\ (c <= chunk < c + align /\ chunk mod align = 0)
     /\ row_range N P rank align = (row_beg, row_end)
     /\ (align = B -> serena_row_range N P rank = (row_beg, row_end)))
  /\ ceil_div 100 3 = 34
  /\ aligned_chunk 100 3 4 = 36
  /\ all_ranges 100 3 4 = [(0, 36); (36, 72); (72, 100)].
Proof.
  split; [ | repeat split; reflexivity ].
  intros N P rank align F. cbv zeta. pose proof F as [FN FP Fr Fa].
  split; [ apply ceil_div_bounds; lia | ].
  split; [ apply round_up_bounds; lia | ].
  split; [ apply (row_range_assign _ _ _ _ F) | ].
  intros ->. apply (serena_row_range_assign _ _ _ F).
Qed.

Lemma row_range_formula_witness :
  fits 100 3 1 4 /\ row_range 100 3 1 4 = (36, 72).
Proof.
  assert (F : fits 100 3 1 4)
    by (constructor; unfold MAX_ROWS, INT_MAX; lia).
  split; [ exact F | ].
  destruct (proj1 row_range_formula 100 3 1 4 F) as (_ & _ & E & _).
  exact E.
Defined.

(** C2.  For [0 <= N], [1 <= P] and [1 <= align] within the sizes of
    [fits], the ranges of ranks [0 .. P-1] partition [[0, N)]: the first
    starts at 0, each ends where the next starts, the last ends at [N],
    and every row has exactly one owner.  A range's length is a multiple of
    [align] unless it is the last non-empty one.  An empty range sits at
    [N], so do the ranges of all later ranks, and it is no error: the
    assembly returns an empty strip for it and the readers a zero chunk and
    an empty default right-hand side.  With [N = 10], [P = 8], [align = 4]
    rank 3 has the empty range. *)
Theorem row_ranges_partition N P align :
  0 <= N <= MAX_ROWS -> 1 <= P <= INT_MAX -> 1 <= align <= INT_MAX ->
  let range := fun r => row_range N P r align in
  fst (range 0) = 0
  /\ snd (range (P - 1)) = N
  /\ (forall r, 0 <= r < P -> 0 <= fst (range r) <= snd (range r))
  /\ (forall r, 0 <= r -> r + 1 < P -> snd (range r) = fst (range (r + 1)))
  /\ (forall x, 0 <= x < N ->
        exists r, (0 <= r < P /\ fst (range r) <= x < snd (range r))
          /\ forall r', 0 <= r' < P ->
               fst (range r') <= x < snd (range r') -> r' = r)
  /\ (forall r, 0 <= r < P ->
        (snd (range r) - fst (range r)) mod align = 0
        \/ (fst (range r) < snd (range r)
            /\ forall r', r < r' < P -> range r' = (N, N)))
  /\ (forall r, 0 <= r < P -> fst (range r) = snd (range r) ->
        forall r', r <= r' < P -> range r' = (N, N))
  /\ (forall r n, 0 <= r < P -> grid n -> N = n * n * n ->
        fst (range r) = snd (range r) ->
        assemble_poisson3d P r n align
        = {| chunk := 0;
             strip := {| ptr := [0]; col := []; val := [] |};
             rhs := [] |})
  /\ (forall r crs_size read_crs read_dense mm_rows mm_matrix mm_vector A_file,
        0 <= r < P -> fst (range r) = snd (range r) ->
        (crs_size A_file = N ->
         chunk (Source.read_binary crs_size read_crs read_dense P r A_file "" align) = 0
         /\ rhs (Source.read_binary crs_size read_crs read_dense P r A_file "" align) = [])
        /\ (mm_rows A_file = N ->
            chunk (Source.read_matrix_market mm_rows mm_matrix mm_vector P r A_file "" align) = 0
            /\ rhs (Source.read_matrix_market mm_rows mm_matrix mm_vector P r A_file "" align) = []))
  /\ row_range 10 8 3 4 = (10, 10).
Proof.
  intros HN HP Ha range.
  assert (F : forall r, 0 <= r < P -> range r = assign N P r align).
  { intros r Hr. apply row_range_assign. constructor; assumption. }
  assert (HN0 : 0 <= N) by lia. assert (HP1 : 1 <= P) by lia.
  assert (Ha1 : 1 <= align) by lia.
  assert (Z0 : forall r, 0 <= r -> 0 <= fst (assign N P r align)).
  { intros r Hr. unfold assign. cbn [fst].
    pose proof (aligned_chunk_bounds N P align HN0 HP1 Ha1) as B. cbv zeta in B.
    assert (0 <= aligned_chunk N P align * r) by nia. lia. }
  assert (Hempty : forall r, 0 <= r < P -> fst (range r) = snd (range r) ->
            forall r', r <= r' < P -> range r' = (N, N)).
  { intros r Hr E r' Hr'. rewrite F in E by lia.
    pose proof (assign_empty N P align HN0 HP1 Ha1 r ltac:(lia) E) as E'.
    destruct (Z.eq_dec r r') as [<- | Hne].
    - rewrite F by lia. exact E'.
    - rewrite F by lia.
      apply (assign_after_end N P align HN0 HP1 Ha1 r r'); try lia.
      rewrite E'. reflexivity. }
  split; [ rewrite F by lia; apply assign_first; lia | ].
  split; [ rewrite F by lia; apply assign_last; lia | ].
  split.
  { intros r Hr. rewrite F by lia.
    pose proof (assign_ordered N P align HN0 HP1 Ha1 r ltac:(lia)).
    pose proof (Z0 r ltac:(lia)). lia. }
  split.
  { intros r Hr Hr'. rewrite !F by lia. apply assign_contiguous; lia. }
  split.
  { intros x Hx.
    destruct (assign_owner N P align HN0 HP1 Ha1 x Hx) as (r & [Hr Hin] & U).
    exists r. rewrite F by lia. split; [ split; assumption | ].
    intros r' Hr' Hin'. rewrite F in Hin' by lia. apply U; assumption. }
  split.
  { intros r Hr. rewrite F by lia.
    destruct (assign_length N P align HN0 HP1 Ha1 r ltac:(lia)) as [L | [L1 L2]].
    - left. exact L.
    - right. split; [ exact L1 | ]. intros r' Hr'. rewrite F by lia.
      apply (assign_after_end N P align HN0 HP1 Ha1 r r'); lia. }
  split; [ exact Hempty | ].
  split.
  { intros r n Hr G -> E.
    assert (Fr : fits (n * n * n) P r align) by (constructor; assumption).
    pose proof (assemble_poisson3d_rows n P r align G Fr) as (_ & _ & A).
    cbv zeta in A. rewrite A. fold (range r). rewrite <- E, Z.sub_diag.
    reflexivity. }
  split; [ | reflexivity ].
  intros r crs_size read_crs read_dense mm_rows mm_matrix mm_vector A_file Hr E.
  pose proof (Hempty r Hr E r ltac:(lia)) as E'. unfold range in E'.
  unfold MAX_ROWS in HN.
  assert (Z : psub N N = 0).
  { rewrite psub_id; unfold is_ptrdiff, PTRDIFF_MIN, PTRDIFF_MAX; lia. }
  split; intros EN;
    unfold Source.read_binary, Source.read_matrix_market;
    rewrite EN, E'; cbn [chunk rhs Source.empty];
    rewrite Z; split; reflexivity.
Qed.

Lemma row_ranges_partition_witness :
  map (fun r => row_range 10 8 r 4) [0; 1; 2; 3; 7]
  = [(0, 4); (4, 8); (8, 10); (10, 10); (10, 10)]
  /\ snd (row_range 10 8 (8 - 1) 4) = 10.
Proof.
  split; [ reflexivity | ].
  refine (proj1 (proj2 (row_ranges_partition 10 8 4 _ _ _)));
    unfold MAX_ROWS, INT_MAX; lia.
Defined.

End RangeSpec.

(** ** The synthetic problem against the specification *)

Module PoissonSpec.

Import Range Poisson MachineFacts RangeFacts CrsFacts PoissonFacts.

Local Open Scope float_scope.

(** C5.  On a grid of side [n >= 2] and for every row index [idx] of the
    assigned range, the stored row of [idx] is its stencil: with
    [k = idx / (n*n)], [j = (idx / n) mod n], [i = idx mod n] and
    [h2i = (n-1)^2], the diagonal entry [(idx, 6 * h2i)], one entry of value
    [- h2i] for each of the neighbours [idx - n*n], [idx - n], [idx - 1],
    [idx + 1], [idx + n], [idx + n*n] whose coordinate [k - 1], [j - 1],
    [i - 1], [i + 1], [j + 1], [k + 1] lies in [[0, n)], and nothing else. *)
Theorem poisson_row_is_stencil n P rank align idx :
  grid n -> fits (n * n * n) P rank align ->
  let row_beg := fst (row_range (n * n * n) P rank align) in
  let row_end := snd (row_range (n * n * n) P rank align) in
  (row_beg <= idx < row_end)%Z ->
  let k := (idx / (n * n))%Z in
  let j := ((idx / n) mod n)%Z in
  let i := (idx mod n)%Z in
  let h2i := to_double ((n - 1) * (n - 1)) in
  let off := fun (d c : Z) =>
    if in_grid n c then [((idx + d)%Z, - h2i)] else [] in
  row_of (strip (assemble_poisson3d P rank n align)) (Z.to_nat (idx - row_beg))
  = off (- (n * n))%Z (k - 1)%Z ++ off (- n)%Z (j - 1)%Z ++ off (- 1)%Z (i - 1)%Z
    ++ [(idx, to_double 6 * h2i)]
    ++ off 1%Z (i + 1)%Z ++ off n (j + 1)%Z ++ off (n * n)%Z (k + 1)%Z.
Proof.
  intros G F row_beg row_end Hidx. cbv zeta.
  pose proof (assemble_poisson3d_rows n P rank align G F) as (O1 & O2 & A).
  cbv zeta in A. fold row_beg row_end in O1, O2, A. rewrite A. cbn [strip].
  rewrite row_of_crs
    by (rewrite length_map, rows_from_length; lia).
  set (r := Z.to_nat (idx - row_beg)).
  rewrite (nth_indep _ [] (stencil n 0))
    by (rewrite length_map, rows_from_length; lia).
  rewrite map_nth, rows_from_nth by lia.
  replace (row_beg + Z.of_nat r)%Z with idx by lia.
  reflexivity.
Qed.

Lemma poisson_row_is_stencil_witness :
  row_of (strip (assemble_poisson3d 2 1 3 1)) (Z.to_nat (22 - 14))
  = [(13%Z, -4); (19%Z, -4); (21%Z, -4); (22%Z, 24); (23%Z, -4); (25%Z, -4)].
Proof.
  refine (poisson_row_is_stencil 3 2 1 1 22 _ _ _).
  - unfold grid, MAX_ROWS. lia.
  - constructor; unfold MAX_ROWS, INT_MAX; lia.
  - vm_compute. split; [ discriminate | reflexivity ].
Defined.

(** C6, as the code has it.  For [n = 4] ([N = 64]), one process and block
    size 1, row 0 (the grid point [i = j = k = 0]) holds four entries: the
    diagonal 54 and the three neighbours 1, 4 and 16, at -9 each; the
    right-hand side is 64 ones. *)
Theorem poisson_corner_row :
  let r := assemble_poisson3d 1 0 4 1 in
  row_of (strip r) 0 = [(0%Z, 54); (1%Z, -9); (4%Z, -9); (16%Z, -9)]
  /\ length (row_of (strip r) 0) = 4%nat
  /\ chunk r = 64%Z
  /\ rhs r = repeat 1 64.
Proof. vm_compute. repeat split; reflexivity. Qed.

(** C6 as stated fails: row 0 holds four entries, not three, and three of
    them are neighbours at -9, not two. *)
Lemma corner_row_has_four_entries :
  length (row_of (strip (assemble_poisson3d 1 0 4 1)) 0) = 4%nat
  /\ length (row_of (strip (assemble_poisson3d 1 0 4 1)) 0) <> 3%nat
  /\ length (filter (fun e => PrimFloat.eqb (snd e) (-9))
               (row_of (strip (assemble_poisson3d 1 0 4 1)) 0)) = 3%nat.
Proof. vm_compute. repeat split. discriminate. Qed.

(** C9.  On a grid of side [n >= 2], the columns of every assembled row
    are those of its stencil, in the order [idx - n*n], [idx - n],
    [idx - 1], [idx], [idx + 1], [idx + n], [idx + n*n], and strictly
    increasing; every column lies in [[0, n^3)]; the row pointers are
    [chunk + 1] numbers, start at 0 and never decrease; the returned chunk is
    [ptr.size() - 1] and [rhs.size()]. *)
Theorem poisson_strip_invariants n P rank align :
  grid n -> fits (n * n * n) P rank align ->
  let r := assemble_poisson3d P rank n align in
  let row_beg := fst (row_range (n * n * n) P rank align) in
  (forall k, (Z.of_nat k < chunk r)%Z ->
     map fst (row_of (strip r) k) = map fst (stencil n (row_beg + Z.of_nat k))
     /\ StronglySorted Z.lt (map fst (row_of (strip r) k)))
  /\ Forall (fun c => 0 <= c < n * n * n)%Z (col (strip r))
  /\ Z.of_nat (length (ptr (strip r))) = (chunk r + 1)%Z
  /\ nth 0 (ptr (strip r)) 0%Z = 0%Z
  /\ (forall k, (Z.of_nat k < chunk r)%Z ->
        (nth k (ptr (strip r)) 0 <= nth (S k) (ptr (strip r)) 0)%Z)
  /\ chunk r = (Z.of_nat (length (ptr (strip r))) - 1)%Z
  /\ chunk r = Z.of_nat (length (rhs r))
  /\ length (col (strip r)) = length (val (strip r)).
Proof.
  intros G F r row_beg.
  pose proof (assemble_poisson3d_rows n P rank align G F) as (O1 & O2 & A).
  cbv zeta in A. fold row_beg in O1, A. fold r in A.
  set (row_end := snd (row_range (n * n * n) P rank align)) in *.
  set (count := Z.to_nat (row_end - row_beg)) in *.
  set (rows := map (stencil n) (rows_from row_beg count)) in *.
  assert (L : length rows = count)
    by (unfold rows; now rewrite length_map, rows_from_length).
  assert (Hn : forall k, (k < count)%nat ->
             nth k rows [] = stencil n (row_beg + Z.of_nat k)).
  { intros k Hk. unfold rows.
    rewrite (nth_indep _ [] (stencil n 0))
      by (rewrite length_map, rows_from_length; lia).
    now rewrite map_nth, rows_from_nth by lia. }
  rewrite A. cbn [chunk strip rhs crs_of ptr col val].
  split.
  { intros k Hk. rewrite row_of_crs by lia. rewrite Hn by lia.
    split; [ reflexivity | ]. apply stencil_increasing. apply G. }
  split.
  { apply Forall_forall. intros c Hc. apply in_map_iff in Hc.
    destruct Hc as (e & <- & He). apply in_concat in He.
    destruct He as (row & Hrow & He). unfold rows in Hrow.
    apply in_map_iff in Hrow. destruct Hrow as (idx & <- & Hidx).
    unfold rows_from in Hidx. apply in_map_iff in Hidx.
    destruct Hidx as (k & <- & Hk). apply in_seq in Hk.
    assert (B : (0 <= row_beg + Z.of_nat k < n * n * n)%Z) by lia.
    pose proof (stencil_columns n _ ltac:(destruct G; lia) B) as S.
    rewrite Forall_forall in S. apply S. apply in_map. exact He. }
  split; [ rewrite offsets_length; lia | ].
  split; [ reflexivity | ].
  split; [ intros k Hk; apply offsets_monotone; lia | ].
  split; [ rewrite offsets_length; lia | ].
  split; [ rewrite repeat_length; lia | ].
  now rewrite !length_map.
Qed.

Lemma poisson_strip_invariants_witness :
  Forall (fun c => 0 <= c < 2 * 2 * 2)%Z (col (strip (assemble_poisson3d 1 0 2 1)))
  /\ chunk (assemble_poisson3d 1 0 2 1) = 8%Z.
Proof.
  assert (G : grid 2) by (unfold grid, MAX_ROWS; lia).
  assert (F : fits (2 * 2 * 2) 1 0 1)
    by (constructor; unfold MAX_ROWS, INT_MAX; lia).
  split.
  - exact (proj1 (proj2 (poisson_strip_invariants 2 1 0 1 G F))).
  - reflexivity.
Defined.

End PoissonSpec.

(** ** The right-hand side against the specification *)

Module SourceSpec.

Import Range Poisson Source MachineFacts RangeFacts.

Local Open Scope float_scope.

Section Readers.

Variable mm_rows : string -> Z.
Variable mm_matrix : string -> Z -> Z -> arrays.
Variable mm_vector : string -> Z -> Z -> list float.
Variable crs_size : string -> Z.
Variable read_crs : string -> Z -> Z -> Z -> arrays.
Variable read_dense : string -> Z -> Z -> list float.

Let load := load mm_rows mm_matrix mm_vector crs_size read_crs read_dense.
Let local_range := local_range mm_rows crs_size.
Let global_rows := global_rows mm_rows crs_size.

(** C8.  Whatever the source of the problem, when no right-hand-side file
    is supplied (the path is empty, or no matrix is given and the stencil
    is assembled) the local right-hand side is [row_end - row_beg] ones;
    when a matrix and a right-hand-side file are given, it is what the
    reader returns for that file and the rows [[row_beg, row_end)]. *)
Theorem rhs_ones_or_file_segment size rank o aggr_block :
  fits (global_rows o) size rank (imul (opt_block_size o) aggr_block) ->
  let problem := load size rank o aggr_block in
  let row_beg := fst (local_range size rank o aggr_block) in
  let row_end := snd (local_range size rank o aggr_block) in
  (opt_matrix o = None \/ opt_rhs o = EmptyString ->
     rhs problem = repeat 1 (Z.to_nat (row_end - row_beg))
     /\ Z.of_nat (length (rhs problem)) = (row_end - row_beg)%Z)
  /\ (opt_matrix o <> None -> opt_rhs o <> EmptyString ->
        rhs problem
        = if opt_binary o
          then read_dense (opt_rhs o) row_beg row_end
          else mm_vector (opt_rhs o) row_beg row_end).
Proof.
  intros F problem row_beg row_end.
  unfold problem, row_beg, row_end, load, local_range, global_rows in *.
  unfold Source.load, Source.local_range, Source.global_rows in *.
  set (bs := imul (opt_block_size o) aggr_block) in *.
  assert (R : forall N, fits N size rank bs ->
            let b := fst (row_range N size rank bs) in
            let e := snd (row_range N size rank bs) in
            psub e b = (e - b)%Z /\ (0 <= e - b)%Z).
  { intros N FN. cbv zeta. rewrite (row_range_assign _ _ _ _ FN).
    pose proof FN as [HN HP Hr Ha]. unfold MAX_ROWS in HN.
    pose proof (assign_ordered N size bs ltac:(lia) ltac:(lia) ltac:(lia)
                  rank ltac:(lia)) as [O1 O2].
    assert (O0 : (0 <= fst (assign N size rank bs))%Z).
    { unfold assign. cbn [fst].
      pose proof (aligned_chunk_bounds N size bs) as B. cbv zeta in B.
      assert (0 <= aligned_chunk N size bs * rank)%Z by nia. lia. }
    split; [ | lia ].
    apply psub_id. unfold is_ptrdiff, PTRDIFF_MIN, PTRDIFF_MAX. lia. }
  split.
  - intros H. destruct (opt_matrix o) as [A_file | ] eqn:EA.
    + destruct H as [H | H]; [ discriminate | ].
      destruct (opt_binary o);
        unfold read_binary, read_matrix_market;
        destruct (R _ F) as [R1 R2];
        match goal with |- context [row_range ?N size rank bs] =>
          destruct (row_range N size rank bs) as [b e] end;
        cbn [fst snd] in *; cbn [rhs]; rewrite H; cbn [empty]; unfold ones;
        rewrite R1, repeat_length;
        (split; [ reflexivity | lia ]).
    + unfold assemble_poisson3d. destruct (R _ F) as [R1 R2].
      match goal with |- context [row_range ?N size rank bs] =>
        destruct (row_range N size rank bs) as [b e] end.
      cbn [fst snd] in *. cbn [rhs].
      rewrite R1, repeat_length. split; [ reflexivity | lia ].
  - intros HA HR. destruct (opt_matrix o) as [A_file | ]; [ | congruence ].
    destruct (opt_rhs o) as [ | c s'] eqn:ER; [ congruence | ].
    destruct (opt_binary o);
      unfold read_binary, read_matrix_market;
      match goal with |- context [row_range ?N size rank bs] =>
        destruct (row_range N size rank bs) as [b e] end;
      reflexivity.
Qed.

End Readers.

Lemma rhs_ones_or_file_segment_witness :
  rhs (Source.load (fun _ => 6%Z) (fun _ _ _ => empty_strip)
         (fun _ _ _ => []) (fun _ => 6%Z) (fun _ _ _ _ => empty_strip)
         (fun _ b e => repeat 2 (Z.to_nat (e - b)))
         2 1 sample_options 1)
  = [2; 2; 2].
Proof.
  refine (proj2 (rhs_ones_or_file_segment (fun _ => 6%Z) (fun _ _ _ => empty_strip)
         (fun _ _ _ => []) (fun _ => 6%Z) (fun _ _ _ _ => empty_strip)
         (fun _ b e => repeat 2 (Z.to_nat (e - b)))
         2 1 sample_options 1 _) _ _).
  - constructor; vm_compute; split; easy.
  - discriminate.
  - discriminate.
Defined.

End SourceSpec.

(** ** Repartitioning against the specification *)

Module PartitionSpec.

Import Partition.

Section Backend.

Variable strip_t : Type.
Variable mat : Type.
Variable elt : Type.
Variable zero : elt.
Variable construct : Z -> Z -> strip_t -> mat.
Variable partitioner : ptype -> mat -> Z -> mat.
Variable mtranspose : mat -> mat.
Variable mproduct : mat -> mat -> mat.
Variable loc_rows : mat -> nat.
Variable spmv : Z -> mat -> list elt -> Z -> list elt -> list elt.

(** [backend::spmv] writes into [y] and keeps its size. *)
Hypothesis spmv_length :
  forall a A x b y, length (spmv a A x b y) = length y.

Let partition :=
  partition strip_t mat elt zero construct partitioner mtranspose mproduct
    loc_rows spmv.

Lemma ptype_eqb_merge p : ptype_eqb p merge = true <-> p = merge.
Proof. destruct p; cbn; split; congruence. Qed.

(** C3.  When the process count is not 1 and the strategy is not [merge],
    [partition] asks the partitioner for [I], takes [J = transpose (I)],
    returns [J * (A * I)], still composable, and leaves in [rhs] the
    product [spmv (1, J, rhs, 0, new_rhs)] of [J] and [rhs], of [J]'s local
    row count; [J] is moved to the backend, and that before the product
    with [rhs]; it is the only matrix moved. *)
Theorem partition_repartitions size rank Astrip rhs p block_size log :
  size <> 1 -> p <> merge ->
  let A := construct size rank Astrip in
  let I := partitioner p A block_size in
  let J := mtranspose I in
  let A' := mproduct J (mproduct A I) in
  let rhs' := spmv 1 J rhs 0 (repeat zero (loc_rows J)) in
  let calls :=
    [Construct mat; Tic mat "partition"; RunPartitioner mat p 1 block_size;
     Transpose I; Product A I; Product J (mproduct A I);
     MoveToBackend J; Spmv J; Toc mat "partition"] in
  partition size rank Astrip rhs p block_size log
  = Some ({| out_A := {| content := A'; resident := false |};
             out_rhs := rhs';
             out_J := Some {| content := J; resident := true |} |},
          log ++ calls)
  /\ length rhs' = loc_rows J
  /\ before (MoveToBackend J) (Spmv J) calls
  /\ filter (fun c => match c with MoveToBackend _ => true | _ => false end)
       calls = [MoveToBackend J].
Proof.
  intros Hs Hp. cbv zeta.
  split; [ | split; [ | split ] ].
  - unfold partition, Partition.partition, make_dmatrix, run_partitioner,
      transpose, product, move_to_backend, backend_spmv, bind, emit, ret.
    cbn [content resident orb].
    destruct (Z.eqb_spec size 1) as [E | _]; [ contradiction | ].
    destruct (ptype_eqb p merge) eqn:E;
      [ apply ptype_eqb_merge in E; contradiction | ].
    cbn [orb content resident]. rewrite <- !app_assoc. reflexivity.
  - rewrite spmv_length. apply repeat_length.
  - exists [Construct mat; Tic mat "partition"; RunPartitioner mat p 1 block_size;
            Transpose (partitioner p (construct size rank Astrip) block_size);
            Product (construct size rank Astrip)
              (partitioner p (construct size rank Astrip) block_size);
            Product
              (mtranspose (partitioner p (construct size rank Astrip) block_size))
              (mproduct (construct size rank Astrip)
                 (partitioner p (construct size rank Astrip) block_size))],
      [], [Toc mat "partition"].
    reflexivity.
  - reflexivity.
Qed.

(** C4.  When the process count is 1 or the strategy is [merge],
    [partition] returns the distributed matrix it built from the strip, and
    the right-hand side as it was; its only call is that construction, so
    no restriction operator is computed and nothing is moved. *)
Theorem partition_skips size rank Astrip rhs p block_size log :
  size = 1 \/ p = merge ->
  partition size rank Astrip rhs p block_size log
  = Some ({| out_A := {| content := construct size rank Astrip;
                         resident := false |};
             out_rhs := rhs;
             out_J := None |},
          log ++ [Construct mat]).
Proof.
  intros H.
  unfold partition, Partition.partition, make_dmatrix, bind, emit, ret.
  destruct H as [-> | ->]; [ reflexivity | ].
  rewrite orb_true_r. reflexivity.
Qed.

End Backend.

Lemma dense_spmv_length a A x b y :
  length (DenseBackend.spmv a A x b y) = length y.
Proof.
  unfold DenseBackend.spmv.
  rewrite length_map, length_combine, length_seq. apply Nat.min_id.
Qed.

Lemma partition_repartitions_witness :
  option_map fst
    (DenseBackend.partition 2 0 [[2; 1]; [0; 3]] [5; 7] parmetis 1 [])
  = Some {| out_A := {| content := [[3; 0]; [1; 2]]; resident := false |};
            out_rhs := [7; 5];
            out_J := Some {| content := [[0; 1]; [1; 0]]; resident := true |} |}.
Proof.
  unfold DenseBackend.partition.
  rewrite (proj1 (partition_repartitions DenseBackend.matrix DenseBackend.matrix
                    Z 0 DenseBackend.construct DenseBackend.partitioner
                    DenseBackend.transpose DenseBackend.product (@length (list Z))
                    DenseBackend.spmv dense_spmv_length
                    2 0 [[2; 1]; [0; 3]] [5; 7] parmetis 1 []
                    ltac:(discriminate) ltac:(discriminate))).
  reflexivity.
Defined.

Lemma partition_skips_witness :
  option_map fst
    (DenseBackend.partition 2 0 [[2; 1]; [0; 3]] [5; 7] merge 1 [])
  = Some {| out_A := {| content := [[2; 1]; [0; 3]]; resident := false |};
            out_rhs := [5; 7];
            out_J := None |}.
Proof.
  unfold DenseBackend.partition.
  rewrite (partition_skips DenseBackend.matrix DenseBackend.matrix
             Z 0 DenseBackend.construct DenseBackend.partitioner
             DenseBackend.transpose DenseBackend.product (@length (list Z))
             DenseBackend.spmv
             2 0 [[2; 1]; [0; 3]] [5; 7] merge 1 [] (or_intror eq_refl)).
  reflexivity.
Defined.

End PartitionSpec.

(** ** The block-size dispatch against the specification *)

Module DispatchSpec.

Import Dispatch.

Lemma existsb_eqb_in x l : existsb (Z.eqb x) l = true <-> In x l.
Proof.
  rewrite existsb_exists. split.
  - intros (y & Hy & E). apply Z.eqb_eq in E. now subst.
  - intros H. exists x. split; [ exact H | apply Z.eqb_refl ].
Qed.

(** C7.  When the requested block size is not among the supported ones
    (1 and the block cases of the build), the dispatch prints
    "Unsupported block size!" on rank 0 and does nothing on the other
    ranks; it calls neither [solve_scalar] nor any [solve_block]. *)
Theorem unsupported_block_size be block_sizes rank block_size :
  ~ In block_size (supported be block_sizes) ->
  dispatch be block_sizes rank block_size
  = (if rank =? 0 then [Print "Unsupported block size!"] else [])
  /\ existsb is_solve (dispatch be block_sizes rank block_size) = false.
Proof.
  intros H. unfold supported in H. cbn [In] in H.
  assert (E1 : existsb (Z.eqb block_size) (block_cases be block_sizes) = false).
  { destruct (existsb _ _) eqn:E; [ | reflexivity ].
    apply existsb_eqb_in in E. tauto. }
  assert (E2 : (block_size =? 1) = false) by (apply Z.eqb_neq; intuition).
  unfold dispatch. rewrite E1, E2.
  destruct (rank =? 0); split; reflexivity.
Qed.

Lemma unsupported_block_size_witness :
  dispatch BUILTIN default_block_sizes 0 5 = [Print "Unsupported block size!"]
  /\ dispatch BUILTIN default_block_sizes 1 5 = [].
Proof.
  assert (H : ~ In 5 (supported BUILTIN default_block_sizes)).
  { cbn. intros [H | [H | [H | []]]]; discriminate. }
  split.
  - exact (proj1 (unsupported_block_size BUILTIN default_block_sizes 0 5 H)).
  - exact (proj1 (unsupported_block_size BUILTIN default_block_sizes 1 5 H)).
Defined.

End DispatchSpec.

(** ** The tutorial's diagonal scaling *)

Module SerenaFacts.

Import Serena MachineFacts.

Local Open Scope float_scope.

Lemma vget_of_nat {A : Type} (v : list A) (k : nat) :
  vget v (Z.of_nat k) = nth_error v k.
Proof.
  unfold vget. destruct (Z.ltb_spec (Z.of_nat k) 0); [ lia | ].
  now rewrite Nat2Z.id.
Qed.

Lemma vset_middle {A : Type} (l1 l2 : list A) (y x : A) :
  vset (l1 ++ y :: l2) (Z.of_nat (length l1)) x = Some (l1 ++ x :: l2).
Proof.
  unfold vset. rewrite length_app. cbn [length].
  destruct (Z.leb_spec 0 (Z.of_nat (length l1))); [ | lia ].
  destruct (Z.ltb_spec (Z.of_nat (length l1))
              (Z.of_nat (length l1 + S (length l2)))); [ | lia ].
  cbn [andb]. rewrite Nat2Z.id. f_equal.
  rewrite firstn_app, firstn_all, Nat.sub_diag. cbn [firstn].
  rewrite app_nil_r. f_equal.
  rewrite skipn_app, skipn_all2 by lia.
  replace (S (length l1) - length l1)%nat with 1%nat by lia. reflexivity.
Qed.

Lemma nth_error_combine_some {A B : Type} (l : list A) (l' : list B) :
  length l' = length l ->
  forall k, (k < length l)%nat ->
  exists x y, nth_error l k = Some x /\ nth_error l' k = Some y
              /\ nth_error (combine l l') k = Some (x, y).
Proof.
  revert l'. induction l as [ | x l IH]; intros [ | y l'] L k Hk;
    cbn in *; try lia.
  destruct k as [ | k]; cbn.
  - exists x, y. repeat split.
  - apply IH; lia.
Qed.

Lemma skipn_nth_error {A : Type} (l : list A) : forall k x,
  nth_error l k = Some x -> skipn k l = x :: skipn (S k) l.
Proof.
  induction l as [ | y l IH]; intros [ | k] x H; cbn in H; try discriminate.
  - now inversion H.
  - cbn [skipn]. apply IH. exact H.
Qed.

(** The inner loop finds the first entry of the scanned positions whose
    column is [I]. *)
Lemma find_diagonal_first a I :
  (0 <= I <= PTRDIFF_MAX)%Z ->
  length (val a) = length (col a) ->
  (Z.of_nat (length (col a)) <= PTRDIFF_MAX)%Z ->
  Forall is_ptrdiff (col a) ->
  forall count j, (j + count <= length (col a))%nat ->
  find_diagonal count (Z.of_nat j) I a
  = Some (option_map (fun e => to_double 1 / sqrt (snd e))
            (find (fun e => (fst e =? I)%Z)
               (firstn count (skipn j (combine (col a) (val a)))))).
Proof.
  intros HI HL HS HC. induction count as [ | count IH]; intros j Hj.
  - reflexivity.
  - cbn [find_diagonal]. rewrite !vget_of_nat.
    destruct (nth_error_combine_some (col a) (val a) HL j ltac:(lia))
      as (c & v & Ec & Ev & Ecv).
    rewrite Ec, Ev, (skipn_nth_error _ _ _ Ecv). cbn [firstn find fst snd].
    assert (Pc : is_ptrdiff c).
    { rewrite Forall_forall in HC. apply HC. eapply nth_error_In. exact Ec. }
    destruct (Z.eqb_spec (to_size c) I) as [E | E];
      destruct (Z.eqb_spec c I) as [E' | E'].
    + reflexivity.
    + exfalso. apply E'. apply (to_size_eq_small c I Pc HI). exact E.
    + exfalso. apply E. apply (to_size_eq_small c I Pc HI). exact E'.
    + unfold PTRDIFF_MAX in HS.
      rewrite padd_id
        by (unfold is_ptrdiff, PTRDIFF_MIN, PTRDIFF_MAX; lia).
      replace (Z.of_nat j + 1)%Z with (Z.of_nat (S j)) by lia.
      apply IH. lia.
Qed.

Lemma vset_at {A : Type} (l1 l2 : list A) (y x : A) k :
  length l1 = k -> vset (l1 ++ y :: l2) (Z.of_nat k) x = Some (l1 ++ x :: l2).
Proof. intros <-. apply vset_middle. Qed.

Lemma snoc_prefix {A : Type} (f : nat -> A) (x : A) i (rest : list A) :
  x = f i ->
  (map f (seq 0 i) ++ x :: rest) = map f (seq 0 (S i)) ++ rest.
Proof.
  intros ->. rewrite seq_S, map_app, <- app_assoc. reflexivity.
Qed.

Section Scaling.

Variable a : arrays.
Variables row_beg chunk : Z.
Hypothesis Hbeg : (0 <= row_beg)%Z.
Hypothesis Hchunk : (0 <= chunk)%Z.
Hypothesis Hend : (row_beg + chunk <= PTRDIFF_MAX)%Z.
Hypothesis Hwf : well_formed chunk a.

Lemma scale_row_filled i :
  (i < Z.to_nat chunk)%nat ->
  scale_row a (Z.of_nat i) (row_beg + Z.of_nat i) (filled a row_beg chunk i)
  = Some (filled a row_beg chunk (S i)).
Proof.
  intros Hi. destruct Hwf as [W1 W2 W3 W4 W5].
  destruct (W2 i Hi) as [[M1 M2] M3]. unfold PTRDIFF_MAX in *.
  unfold scale_row, filled. cbn [dia d_ptr d_col].
  replace (S (Z.to_nat chunk) - i)%nat with (S (S (Z.to_nat chunk) - S i)) by lia.
  replace (Z.to_nat chunk - i)%nat with (S (Z.to_nat chunk - S i)) by lia.
  cbn [repeat].
  rewrite !to_ptrdiff_id
    by (unfold is_ptrdiff, PTRDIFF_MIN, PTRDIFF_MAX; lia).
  rewrite !vset_at by (now rewrite length_map, length_seq).
  unfold uadd. rewrite to_size_id by (unfold is_size, SIZE_MAX; lia).
  replace (Z.of_nat i + 1)%Z with (Z.of_nat (S i)) by lia.
  rewrite !vget_of_nat.
  rewrite (nth_error_nth' (ptr a) 0%Z) by lia.
  rewrite (nth_error_nth' (ptr a) 0%Z) by lia.
  set (j := nth i (ptr a) 0%Z) in *. set (e := nth (S i) (ptr a) 0%Z) in *.
  rewrite <- (Z2Nat.id j) at 2 by lia.
  rewrite find_diagonal_first; try assumption; try lia.
  fold (row_of a i).
  assert (F : scaling_factor a i (row_beg + Z.of_nat i)
              = match option_map (fun e => to_double 1 / sqrt (snd e))
                        (find (fun e => (fst e =? row_beg + Z.of_nat i)%Z)
                           (row_of a i)) with
                | Some s => s
                | None => 1
                end).
  { unfold scaling_factor.
    destruct (find _ (row_of a i)) as [[c v] | ]; reflexivity. }
  unfold row_of in F |- *. fold j e in F |- *.
  destruct (option_map _ _) as [s | ].
  - rewrite vset_at by (now rewrite length_map, length_seq).
    f_equal. f_equal.
    + apply snoc_prefix. exact (eq_sym F).
    + apply (snoc_prefix Z.of_nat). reflexivity.
    + apply (snoc_prefix (fun r => (row_beg + Z.of_nat r)%Z)). reflexivity.
  - f_equal. f_equal.
    + apply snoc_prefix. exact (eq_sym F).
    + apply (snoc_prefix Z.of_nat). reflexivity.
    + apply (snoc_prefix (fun r => (row_beg + Z.of_nat r)%Z)). reflexivity.
  - unfold PTRDIFF_MAX. lia.
Qed.

Lemma scale_loop_filled count : forall i,
  (i + count <= Z.to_nat chunk)%nat ->
  scale_loop count a (Z.of_nat i) (row_beg + Z.of_nat i)
    (filled a row_beg chunk i)
  = Some (filled a row_beg chunk (i + count)).
Proof.
  induction count as [ | count IH]; intros i Hi.
  - rewrite Nat.add_0_r. reflexivity.
  - cbn [scale_loop]. rewrite scale_row_filled by lia.
    unfold uadd. unfold PTRDIFF_MAX in Hend.
    rewrite !to_size_id by (unfold is_size, SIZE_MAX; lia).
    replace (Z.of_nat i + 1)%Z with (Z.of_nat (S i)) by lia.
    replace (row_beg + Z.of_nat i + 1)%Z with (row_beg + Z.of_nat (S i))%Z by lia.
    rewrite IH by lia. f_equal. f_equal. lia.
Qed.

(** The scaling step succeeds, with these three vectors. *)
Lemma scale_result :
  scale row_beg chunk a
  = Some {| dia := map (fun r => scaling_factor a r (row_beg + Z.of_nat r))
                     (seq 0 (Z.to_nat chunk));
            d_ptr := map Z.of_nat (seq 0 (S (Z.to_nat chunk)));
            d_col := map (fun r => (row_beg + Z.of_nat r)%Z)
                       (seq 0 (Z.to_nat chunk)) |}.
Proof.
  unfold scale. unfold PTRDIFF_MAX in Hend.
  unfold uadd. rewrite to_size_id by (unfold is_size, SIZE_MAX; lia).
  replace (Z.to_nat (chunk + 1)) with (S (Z.to_nat chunk)) by lia.
  pose proof (scale_loop_filled (Z.to_nat chunk) 0 ltac:(lia)) as L.
  unfold filled at 1 in L. cbn [seq map app] in L.
  rewrite !Nat.sub_0_r, Z.add_0_r in L. change (Z.of_nat 0) with 0%Z in L.
  rewrite L. cbn [Nat.add]. unfold filled. cbn [dia d_ptr d_col].
  rewrite Nat.sub_diag.
  replace (S (Z.to_nat chunk) - Z.to_nat chunk)%nat with 1%nat by lia.
  cbn [repeat]. rewrite !app_nil_r.
  rewrite length_app, length_map, length_seq. cbn [length].
  replace (Z.of_nat (Z.to_nat chunk + 1) - 1)%Z with (Z.of_nat (Z.to_nat chunk)) by lia.
  rewrite vset_at by (now rewrite length_map, length_seq).
  rewrite to_ptrdiff_id by (unfold is_ptrdiff, PTRDIFF_MIN, PTRDIFF_MAX; lia).
  rewrite (seq_S (Z.to_nat chunk)), map_app. cbn [map Nat.add].
  rewrite Z2Nat.id by lia. reflexivity.
Qed.

End Scaling.

End SerenaFacts.

(** ** The diagonal scaling against the specification *)

Module SerenaSpec.

Import Serena MachineFacts SerenaFacts.

Local Open Scope float_scope.

Lemma nth_map_seq {A : Type} (f : nat -> A) n i d :
  (i < n)%nat -> nth i (map f (seq 0 n)) d = f i.
Proof.
  intros Hi. rewrite (nth_indep _ d (f 0%nat)) by (rewrite length_map, length_seq; lia).
  rewrite map_nth, seq_nth by lia. reflexivity.
Qed.

(** C10.  On a well-formed strip of [chunk] rows that starts at global row
    [row_beg], the scaling step completes, and for every local row [i] with
    global row [I = row_beg + i]: [dia[i]] is [1 / sqrt (v)] for the value
    [v] of the (first) stored entry of the row whose column is [I], and the
    initial 1 when the row stores no such entry; [d_ptr[i] = i] and
    [d_col[i] = I], so row [i] of the diagonal matrix holds the one entry
    [(I, dia[i])]; and [d_ptr[chunk] = chunk]. *)
Theorem diagonal_scaling a row_beg chunk :
  (0 <= row_beg)%Z -> (0 <= chunk)%Z -> (row_beg + chunk <= PTRDIFF_MAX)%Z ->
  well_formed chunk a ->
  exists d,
    scale row_beg chunk a = Some d
    /\ length (dia d) = Z.to_nat chunk
    /\ length (d_col d) = Z.to_nat chunk
    /\ length (d_ptr d) = S (Z.to_nat chunk)
    /\ nth (Z.to_nat chunk) (d_ptr d) 0%Z = chunk
    /\ forall i, (i < Z.to_nat chunk)%nat ->
         let I := (row_beg + Z.of_nat i)%Z in
         nth i (dia d) 0
         = match find (fun e => (fst e =? I)%Z) (row_of a i) with
           | Some (_, v) => 1 / sqrt v
           | None => 1
           end
         /\ nth i (d_ptr d) 0%Z = Z.of_nat i
         /\ nth i (d_col d) 0%Z = I
         /\ row_of (diagonal_strip d) i = [(I, nth i (dia d) 0)].
Proof.
  intros Hb Hc He W. eexists. split; [ apply scale_result; assumption | ].
  cbn [dia d_ptr d_col].
  split; [ now rewrite length_map, length_seq | ].
  split; [ now rewrite length_map, length_seq | ].
  split; [ now rewrite length_map, length_seq | ].
  split; [ rewrite nth_map_seq by lia; lia | ].
  intros i Hi. cbv zeta.
  assert (D : forall d', nth i (map (fun r => scaling_factor a r (row_beg + Z.of_nat r))
                  (seq 0 (Z.to_nat chunk))) d'
              = scaling_factor a i (row_beg + Z.of_nat i))
    by (intros d'; now rewrite nth_map_seq by lia).
  split; [ rewrite D; reflexivity | ].
  split; [ now rewrite nth_map_seq by lia | ].
  split; [ now rewrite nth_map_seq by lia | ].
  unfold row_of, diagonal_strip. cbn [ptr col val dia d_ptr d_col].
  rewrite !nth_map_seq by lia.
  replace (Z.to_nat (Z.of_nat (S i) - Z.of_nat i)) with 1%nat by lia.
  rewrite Nat2Z.id.
  set (cs := map (fun r => (row_beg + Z.of_nat r)%Z) (seq 0 (Z.to_nat chunk))).
  set (vs := map (fun r => scaling_factor a r (row_beg + Z.of_nat r))
               (seq 0 (Z.to_nat chunk))) in *.
  destruct (nth_error_combine_some cs vs) with (k := i) as (c & v & Ec & Ev & Ecv).
  { unfold cs, vs. now rewrite !length_map. }
  { unfold cs. rewrite length_map, length_seq. lia. }
  rewrite (skipn_nth_error _ _ _ Ecv). cbn [firstn].
  assert (Ec' : nth_error cs i = Some (nth i cs 0%Z)).
  { apply nth_error_nth'. unfold cs. rewrite length_map, length_seq. lia. }
  assert (Ev' : nth_error vs i = Some (nth i vs 0)).
  { apply nth_error_nth'. unfold vs. rewrite length_map, length_seq. lia. }
  rewrite Ec in Ec'. rewrite Ev in Ev'.
  injection Ec' as ->. injection Ev' as ->.
  unfold cs. rewrite nth_map_seq by lia. rewrite ?D. reflexivity.
Qed.

Lemma sample_strip_well_formed : well_formed 3 sample_strip.
Proof.
  constructor; cbn.
  - reflexivity.
  - intros [ | [ | [ | r]]] Hr; cbn; lia.
  - reflexivity.
  - unfold PTRDIFF_MAX. lia.
  - repeat constructor; unfold PTRDIFF_MIN, PTRDIFF_MAX; lia.
Defined.

Lemma diagonal_scaling_witness :
  exists d, scale 3 3 sample_strip = Some d /\ dia d = [0.5; 1; 0.25].
Proof.
  destruct (diagonal_scaling sample_strip 3 3) as (d & E & _).
  - lia.
  - lia.
  - unfold PTRDIFF_MAX. lia.
  - exact sample_strip_well_formed.
  - exists d. split; [ exact E | ].
    assert (E' : scale 3 3 sample_strip
                 = Some {| dia := [0.5; 1; 0.25]; d_ptr := [0; 1; 2; 3]%Z;
                           d_col := [3; 4; 5]%Z |}) by reflexivity.
    rewrite E' in E. inversion E. reflexivity.
Defined.

End SerenaSpec.

(* ================================================================== *)
(** * Further properties of the code *)

(** ** Row ranges *)

Module RangeLaws.

Import Range Global MachineFacts RangeFacts.

Lemma total_app l1 l2 : total (l1 ++ l2) = total l1 + total l2.
Proof.
  unfold total. induction l1 as [ | x l1 IH]; cbn; [ reflexivity | ].
  rewrite IH. lia.
Qed.

Lemma multiple_mod a m : 1 <= m -> (a mod m = 0 <-> exists q, a = q * m).
Proof.
  intros Hm. split.
  - intros H. exists (a / m). pose proof (Z.div_mod a m). lia.
  - intros [q ->]. apply Z.mod_mul. lia.
Qed.

Lemma assign_sizes_sum N P align k :
  0 <= N -> 1 <= P -> 1 <= align ->
  total (map (fun r => range_size (assign N P (Z.of_nat r) align)) (seq 0 k))
  = fst (assign N P (Z.of_nat k) align).
Proof.
  intros HN HP Ha. induction k as [ | k IH].
  - cbn [seq map total fold_right]. symmetry.
    apply (assign_first N P align HN).
  - rewrite seq_S, map_app, total_app, IH. cbn [map Nat.add total fold_right].
    unfold range_size.
    rewrite (assign_contiguous N P align HN HP Ha (Z.of_nat k)) by lia.
    replace (Z.of_nat (S k)) with (Z.of_nat k + 1) by lia. lia.
Qed.

(** X1.  The sizes of the ranges of ranks [0 .. P-1] add up to the global
    row count [N], and there is one range per rank. *)
Theorem range_sizes_sum N P align :
  0 <= N <= MAX_ROWS -> 1 <= P <= INT_MAX -> 1 <= align <= INT_MAX ->
  total (map range_size (all_ranges N P align)) = N
  /\ length (all_ranges N P align) = Z.to_nat P.
Proof.
  intros HN HP Ha. split.
  - unfold all_ranges. rewrite map_map.
    rewrite (map_ext_in _ (fun r => range_size (assign N P (Z.of_nat r) align))).
    + rewrite assign_sizes_sum by lia. rewrite Z2Nat.id by lia.
      pose proof (aligned_chunk_bounds N P align ltac:(lia) ltac:(lia) ltac:(lia))
        as (_ & H & _). cbv zeta in H.
      unfold assign. cbn [fst]. lia.
    + intros r Hr. apply in_seq in Hr. f_equal.
      apply row_range_assign. constructor; lia.
  - unfold all_ranges. now rewrite length_map, length_seq.
Qed.

Lemma range_sizes_sum_witness :
  total (map range_size (all_ranges 100 3 4)) = 100.
Proof.
  refine (proj1 (range_sizes_sum 100 3 4 _ _ _)); unfold MAX_ROWS, INT_MAX; lia.
Defined.

(** X2.  Both ends of every range are multiples of the alignment, or are
    the global row count [N]. *)
Theorem range_ends_aligned N P rank align :
  fits N P rank align ->
  let row_beg := fst (row_range N P rank align) in
  let row_end := snd (row_range N P rank align) in
  (row_beg mod align = 0 \/ row_beg = N)
  /\ (row_end mod align = 0 \/ row_end = N).
Proof.
  intros F. cbv zeta. rewrite (row_range_assign _ _ _ _ F).
  destruct F as [HN HP Hr Ha].
  pose proof (aligned_chunk_bounds N P align ltac:(lia) ltac:(lia) ltac:(lia))
    as (H1 & H2 & H3 & _). cbv zeta in *.
  unfold assign. cbn [fst snd]. set (chunk := aligned_chunk N P align) in *.
  apply multiple_mod in H3; [ | lia ]. destruct H3 as [q Hq].
  assert (0 <= chunk * rank) by nia.
  split.
  - destruct (Z_le_gt_dec (chunk * rank) N) as [L | G].
    + left. rewrite Z.min_r by lia. apply multiple_mod; [ lia | ].
      exists (q * rank). rewrite Hq. ring.
    + right. lia.
  - destruct (Z_le_gt_dec (chunk * rank + chunk) N) as [L | G].
    + left. replace (Z.min N (Z.min N (chunk * rank) + chunk))
        with (chunk * rank + chunk) by lia.
      apply multiple_mod; [ lia | ]. exists (q * rank + q). rewrite Hq. ring.
    + right. lia.
Qed.

Lemma range_ends_aligned_witness :
  (fst (row_range 100 3 2 4) mod 4 = 0 \/ fst (row_range 100 3 2 4) = 100)
  /\ (snd (row_range 100 3 2 4) mod 4 = 0 \/ snd (row_range 100 3 2 4) = 100).
Proof.
  refine (range_ends_aligned 100 3 2 4 _).
  constructor; unfold MAX_ROWS, INT_MAX; lia.
Defined.

(** X3.  When the alignment divides the global row count, it divides the
    size of every range, the last one included; so for the tutorial, whose
    block size is 3, every chunk is divisible by the block size when the
    matrix has a multiple of 3 rows. *)
Theorem range_sizes_divisible N P rank align :
  fits N P rank align -> N mod align = 0 ->
  range_size (row_range N P rank align) mod align = 0
  /\ (align = B -> range_size (serena_row_range N P rank) mod B = 0).
Proof.
  intros F HNa.
  assert (E : range_size (assign N P rank align) mod align = 0).
  { destruct F as [HN HP Hr Ha].
    pose proof (aligned_chunk_bounds N P align ltac:(lia) ltac:(lia) ltac:(lia))
      as (H1 & H2 & H3 & _). cbv zeta in *.
    unfold assign, range_size. cbn [fst snd].
    set (chunk := aligned_chunk N P align) in *.
    apply multiple_mod in H3; [ | lia ]. destruct H3 as [q Hq].
    apply multiple_mod in HNa; [ | lia ]. destruct HNa as [m Hm].
    assert (0 <= chunk * rank) by nia.
    apply multiple_mod; [ lia | ].
    destruct (Z_le_gt_dec (chunk * rank + chunk) N) as [L | G].
    - exists q. lia.
    - destruct (Z_le_gt_dec N (chunk * rank)) as [L' | G'].
      + exists 0. lia.
      + exists (m - q * rank).
        replace (Z.min N (Z.min N (chunk * rank) + chunk)) with N by lia.
        replace (Z.min N (chunk * rank)) with (chunk * rank) by lia.
        rewrite Hq at 1. rewrite Hm at 1. ring. }
  split.
  - rewrite (row_range_assign _ _ _ _ F). exact E.
  - intros ->. rewrite (serena_row_range_assign _ _ _ F). exact E.
Qed.

Lemma range_sizes_divisible_witness :
  range_size (row_range 99 4 3 3) mod 3 = 0
  /\ range_size (serena_row_range 99 4 3) mod 3 = 0.
Proof.
  assert (F : fits 99 4 3 3) by (constructor; unfold MAX_ROWS, INT_MAX; lia).
  split.
  - exact (proj1 (range_sizes_divisible 99 4 3 3 F eq_refl)).
  - exact (proj2 (range_sizes_divisible 99 4 3 3 F eq_refl) eq_refl).
Defined.

(** X4.  No rank holds more rows than a lower rank, and none holds more
    than the aligned chunk, which exceeds [ceil (N / P)] by less than the
    alignment. *)
Theorem range_sizes_decrease N P align r r' :
  0 <= N <= MAX_ROWS -> 1 <= P <= INT_MAX -> 1 <= align <= INT_MAX ->
  0 <= r <= r' -> r' < P ->
  0 <= range_size (row_range N P r' align)
  /\ range_size (row_range N P r' align) <= range_size (row_range N P r align)
  /\ range_size (row_range N P r align) <= aligned_chunk N P align
  /\ aligned_chunk N P align < ceil_div N P + align.
Proof.
  intros HN HP Ha Hr Hr'.
  rewrite !row_range_assign by (constructor; lia).
  pose proof (aligned_chunk_bounds N P align ltac:(lia) ltac:(lia) ltac:(lia))
    as (H1 & H2 & H3 & _). cbv zeta in *.
  pose proof (round_up_bounds (ceil_div N P) align ltac:(lia)) as [[B1 B2] _].
  fold (aligned_chunk N P align) in B1, B2.
  unfold assign, range_size. cbn [fst snd].
  set (chunk := aligned_chunk N P align) in *.
  assert (0 <= chunk * r) by nia.
  assert (chunk * r <= chunk * r') by nia.
  assert (r = r' \/ chunk * r + chunk <= chunk * r') by nia.
  destruct H4 as [-> | H4]; lia.
Qed.

Lemma range_sizes_decrease_witness :
  range_size (row_range 100 3 2 4) <= range_size (row_range 100 3 0 4).
Proof.
  refine (proj1 (proj2 (range_sizes_decrease 100 3 4 0 2 _ _ _ _ _)));
    unfold MAX_ROWS, INT_MAX; lia.
Defined.

End RangeLaws.

(** ** The synthetic problem *)

Module PoissonLaws.

Import Range Poisson Global MachineFacts RangeFacts CrsFacts PoissonFacts.

Lemma rows_from_app m : forall a k,
  rows_from a (m + k) = rows_from a m ++ rows_from (a + Z.of_nat m) k.
Proof.
  induction m as [ | m IH]; intros a k.
  - cbn [Nat.add]. change (rows_from a 0) with (@nil Z). cbn [app].
    f_equal. cbn. lia.
  - change (S m + k)%nat with (S (m + k)). rewrite !rows_from_S, IH.
    cbn [app]. do 3 f_equal. lia.
Qed.

Lemma map_nth_all {A : Type} (l : list A) (d : A) :
  map (fun k => nth k l d) (seq 0 (length l)) = l.
Proof.
  induction l as [ | x l IH]; [ reflexivity | ].
  cbn [length seq map nth]. f_equal.
  rewrite <- seq_shift, map_map. exact IH.
Qed.

Lemma rows_of_crs rows :
  map (row_of (crs_of rows)) (seq 0 (length rows)) = rows.
Proof.
  rewrite <- (map_nth_all rows []) at 3.
  apply map_ext_in. intros k Hk. apply in_seq in Hk.
  apply row_of_crs. lia.
Qed.

(** The rows a rank assembles are the stencils of its range, in order. *)
Lemma rows_of_assemble n P rank align :
  grid n -> fits (n * n * n) P rank align ->
  let row_beg := fst (assign (n * n * n) P rank align) in
  let row_end := snd (assign (n * n * n) P rank align) in
  rows_of (assemble_poisson3d P rank n align)
  = map (stencil n) (rows_from row_beg (Z.to_nat (row_end - row_beg)))
  /\ rhs (assemble_poisson3d P rank n align)
     = repeat 1%float (Z.to_nat (row_end - row_beg)).
Proof.
  intros G F. cbv zeta.
  pose proof (assemble_poisson3d_rows n P rank align G F) as (O1 & O2 & A).
  cbv zeta in A. rewrite (row_range_assign _ _ _ _ F) in A.
  unfold rows_of. rewrite A. cbn [chunk strip rhs]. split; [ | reflexivity ].
  set (rows := map (stencil n) _).
  replace (Z.to_nat _) with (length rows)
    by (unfold rows; now rewrite length_map, rows_from_length).
  apply rows_of_crs.
Qed.

(** The ranges of the first [k] ranks, one after the other, are the rows
    below the start of rank [k]. *)
Lemma ranges_concat N P align k :
  0 <= N -> 1 <= P -> 1 <= align ->
  concat (map (fun r =>
                 rows_from (fst (assign N P (Z.of_nat r) align))
                   (Z.to_nat (snd (assign N P (Z.of_nat r) align)
                              - fst (assign N P (Z.of_nat r) align))))
              (seq 0 k))
  = rows_from 0 (Z.to_nat (fst (assign N P (Z.of_nat k) align))).
Proof.
  intros HN HP Ha. induction k as [ | k IH].
  - cbn [seq map concat]. change (Z.of_nat 0) with 0.
    rewrite (assign_first N P align HN). reflexivity.
  - rewrite seq_S, map_app, concat_app, IH. cbn [map concat Nat.add].
    rewrite app_nil_r.
    pose proof (assign_ordered N P align HN HP Ha (Z.of_nat k) ltac:(lia)) as [O1 O2].
    pose proof (assign_contiguous N P align HN HP Ha (Z.of_nat k) ltac:(lia)) as C.
    replace (Z.of_nat k + 1) with (Z.of_nat (S k)) in C by lia.
    assert (O0 : 0 <= fst (assign N P (Z.of_nat k) align)).
    { unfold assign. cbn [fst].
      pose proof (aligned_chunk_bounds N P align HN HP Ha) as B. cbv zeta in B.
      assert (0 <= aligned_chunk N P align * Z.of_nat k) by nia. lia. }
    rewrite <- C.
    set (b := fst (assign N P (Z.of_nat k) align)) in *.
    set (e := snd (assign N P (Z.of_nat k) align)) in *.
    replace (Z.to_nat e) with (Z.to_nat b + Z.to_nat (e - b))%nat by lia.
    rewrite rows_from_app. do 2 f_equal. lia.
Qed.

Lemma single_range N : 0 <= N -> assign N 1 0 1 = (0, N).
Proof.
  intros HN.
  pose proof (assign_first N 1 1 HN) as F.
  pose proof (assign_last N 1 1 HN ltac:(lia) ltac:(lia)) as L.
  change (1 - 1) with 0 in L.
  destruct (assign N 1 0 1) as [b e]. cbn [fst snd] in *. congruence.
Qed.

(** X5.  Put together in rank order, the rows that the ranks of any process
    count assemble, under any alignment, are the rows that a single process
    assembles, and so are the right-hand sides: every row of the grid is
    there once, in order, with the same entries. *)
Theorem gather_is_single_process n P align :
  grid n -> 1 <= P <= INT_MAX -> 1 <= align <= INT_MAX ->
  gather_rows P n align = rows_of (assemble_poisson3d 1 0 n 1)
  /\ gather_rhs P n align = rhs (assemble_poisson3d 1 0 n 1)
  /\ Z.of_nat (length (gather_rows P n align)) = n * n * n.
Proof.
  intros G HP Ha. pose proof G as [G2 G3].
  assert (HN : 0 <= n * n * n) by nia.
  assert (F1 : fits (n * n * n) 1 0 1)
    by (constructor; unfold INT_MAX; lia).
  destruct (rows_of_assemble n 1 0 1 G F1) as [R1 R2]. cbv zeta in R1, R2.
  rewrite (single_range _ HN) in R1, R2. cbn [fst snd] in R1, R2.
  rewrite Z.sub_0_r in R1, R2.
  pose proof (aligned_chunk_bounds (n * n * n) P align HN ltac:(lia) ltac:(lia))
    as (_ & B & _). cbv zeta in B.
  assert (EP : fst (assign (n * n * n) P (Z.of_nat (Z.to_nat P)) align) = n * n * n).
  { unfold assign. cbn [fst]. rewrite Z2Nat.id by lia. lia. }
  assert (ER : gather_rows P n align
               = map (stencil n) (rows_from 0 (Z.to_nat (n * n * n)))).
  { unfold gather_rows.
    rewrite (map_ext_in _ (fun r => map (stencil n)
               (rows_from (fst (assign (n * n * n) P (Z.of_nat r) align))
                  (Z.to_nat (snd (assign (n * n * n) P (Z.of_nat r) align)
                             - fst (assign (n * n * n) P (Z.of_nat r) align)))))).
    - rewrite <- (map_map _ (map (stencil n))), <- concat_map.
      rewrite ranges_concat by lia. now rewrite EP.
    - intros r Hr. apply in_seq in Hr.
      apply (rows_of_assemble n P (Z.of_nat r) align G).
      constructor; lia. }
  split; [ now rewrite ER, R1 | ]. split.
  - unfold gather_rhs.
    rewrite (map_ext_in _ (fun r => repeat 1%float
               (length (rows_from (fst (assign (n * n * n) P (Z.of_nat r) align))
                  (Z.to_nat (snd (assign (n * n * n) P (Z.of_nat r) align)
                             - fst (assign (n * n * n) P (Z.of_nat r) align))))))).
    + rewrite <- (map_map _ (fun l => repeat 1%float (length l))).
      set (ranges := map _ (seq 0 (Z.to_nat P))).
      assert (E : concat ranges = rows_from 0 (Z.to_nat (n * n * n))).
      { unfold ranges. rewrite ranges_concat by lia. now rewrite EP. }
      rewrite R2. rewrite <- (rows_from_length 0 (Z.to_nat (n * n * n))), <- E.
      clear. induction ranges as [ | l ls IH]; cbn; [ reflexivity | ].
      now rewrite IH, length_app, repeat_app.
    + intros r Hr. apply in_seq in Hr. rewrite rows_from_length.
      apply (rows_of_assemble n P (Z.of_nat r) align G).
      constructor; lia.
  - rewrite ER, length_map, rows_from_length. lia.
Qed.

Lemma gather_is_single_process_witness :
  gather_rows 3 2 4 = rows_of (assemble_poisson3d 1 0 2 1).
Proof.
  refine (proj1 (gather_is_single_process 2 3 4 _ _ _));
    unfold grid, MAX_ROWS, INT_MAX; lia.
Defined.

(** The grid point of coordinates [(i, j, k)] and back. *)
Lemma coordinates_of n k j i :
  1 <= n -> 0 <= i < n -> 0 <= j < n -> 0 <= k ->
  let idx := k * (n * n) + j * n + i in
  idx / (n * n) = k /\ (idx / n) mod n = j /\ idx mod n = i.
Proof.
  intros Hn Hi Hj Hk. cbv zeta.
  assert (E1 : (k * (n * n) + j * n + i) / n = k * n + j).
  { symmetry. apply (Z.div_unique _ n _ i); [ lia | ring ]. }
  split; [ | split ].
  - symmetry. apply (Z.div_unique _ (n * n) _ (j * n + i)); [ nia | ring ].
  - rewrite E1. symmetry. apply (Z.mod_unique _ n k j); [ lia | ring ].
  - symmetry. apply (Z.mod_unique _ n (k * n + j) i); [ lia | ring ].
Qed.

Lemma stencil_at n k j i :
  1 <= n -> 0 <= i < n -> 0 <= j < n -> 0 <= k ->
  let idx := k * (n * n) + j * n + i in
  let h2i := to_double ((n - 1) * (n - 1)) in
  stencil n idx
  = neighbour n h2i idx (- (n * n)) (k - 1)
    ++ neighbour n h2i idx (- n) (j - 1)
    ++ neighbour n h2i idx (- 1) (i - 1)
    ++ [(idx, PrimFloat.mul (to_double 6) h2i)]
    ++ neighbour n h2i idx 1 (i + 1)
    ++ neighbour n h2i idx n (j + 1)
    ++ neighbour n h2i idx (n * n) (k + 1).
Proof.
  intros Hn Hi Hj Hk. cbv zeta.
  destruct (coordinates_of n k j i Hn Hi Hj Hk) as (Ek & Ej & Ei).
  unfold stencil. rewrite Ek, Ej, Ei. reflexivity.
Qed.

Lemma neighbour_In n h idx d co c v :
  In (c, v) (neighbour n h idx d co)
  <-> in_grid n co = true /\ c = idx + d /\ v = PrimFloat.opp h.
Proof.
  unfold neighbour. destruct (in_grid n co); cbn [In]; split.
  - intros [E | []]. inversion E. auto.
  - intros (_ & -> & ->). now left.
  - intros [].
  - intros (E & _). discriminate.
Qed.

(** The entries of a stencil row, one case per position. *)
Lemma stencil_at_In n k j i c v :
  1 <= n -> 0 <= i < n -> 0 <= j < n -> 0 <= k ->
  let idx := k * (n * n) + j * n + i in
  let h2i := to_double ((n - 1) * (n - 1)) in
  In (c, v) (stencil n idx)
  <-> (in_grid n (k - 1) = true /\ c = idx + - (n * n) /\ v = PrimFloat.opp h2i)
      \/ (in_grid n (j - 1) = true /\ c = idx + - n /\ v = PrimFloat.opp h2i)
      \/ (in_grid n (i - 1) = true /\ c = idx + - 1 /\ v = PrimFloat.opp h2i)
      \/ (c = idx /\ v = PrimFloat.mul (to_double 6) h2i)
      \/ (in_grid n (i + 1) = true /\ c = idx + 1 /\ v = PrimFloat.opp h2i)
      \/ (in_grid n (j + 1) = true /\ c = idx + n /\ v = PrimFloat.opp h2i)
      \/ (in_grid n (k + 1) = true /\ c = idx + n * n /\ v = PrimFloat.opp h2i).
Proof.
  intros Hn Hi Hj Hk. cbv zeta. rewrite stencil_at by assumption.
  rewrite !in_app_iff, !neighbour_In. cbn [In].
  split.
  - intros [H | [H | [H | [[H | []] | [H | [H | H]]]]]]; try tauto.
    inversion H. tauto.
  - intros [H | [H | [H | [[-> ->] | [H | [H | H]]]]]]; tauto.
Qed.

Lemma in_grid_true n c : in_grid n c = true <-> 0 <= c < n.
Proof. unfold in_grid. lia. Qed.

(** The stencil is symmetric: what row [idx] stores for column [c], row [c]
    stores for column [idx]. *)
Lemma stencil_symmetric n idx c v :
  1 <= n -> 0 <= idx < n * n * n ->
  In (c, v) (stencil n idx) -> In (idx, v) (stencil n c).
Proof.
  intros Hn Hidx H.
  pose proof (coordinates n idx Hn Hidx) as C. cbv zeta in C.
  destruct C as (E & Hi & Hj & Hk & _).
  set (k := idx / (n * n)) in *. set (j := (idx / n) mod n) in *.
  set (i := idx mod n) in *.
  rewrite E in H. apply stencil_at_In in H; try lia. rewrite <- E in H.
  rewrite !in_grid_true in H.
  destruct H as [(G & -> & ->) | [(G & -> & ->) | [(G & -> & ->)
            | [(-> & ->) | [(G & -> & ->) | [(G & -> & ->) | (G & -> & ->)]]]]]].
  - replace (idx + - (n * n)) with ((k - 1) * (n * n) + j * n + i) by lia.
    apply stencil_at_In; try lia. rewrite !in_grid_true.
    do 6 right. repeat split; lia.
  - replace (idx + - n) with (k * (n * n) + (j - 1) * n + i) by lia.
    apply stencil_at_In; try lia. rewrite !in_grid_true.
    do 5 right. left. repeat split; lia.
  - replace (idx + - 1) with (k * (n * n) + j * n + (i - 1)) by lia.
    apply stencil_at_In; try lia. rewrite !in_grid_true.
    do 4 right. left. repeat split; lia.
  - rewrite E. apply stencil_at_In; try lia. do 3 right. left. split; reflexivity.
  - replace (idx + 1) with (k * (n * n) + j * n + (i + 1)) by lia.
    apply stencil_at_In; try lia. rewrite !in_grid_true.
    do 2 right. left. repeat split; lia.
  - replace (idx + n) with (k * (n * n) + (j + 1) * n + i) by lia.
    apply stencil_at_In; try lia. rewrite !in_grid_true.
    right. left. repeat split; lia.
  - replace (idx + n * n) with ((k + 1) * (n * n) + j * n + i) by lia.
    apply stencil_at_In; try lia. rewrite !in_grid_true.
    left. repeat split; lia.
Qed.

(** The rows of the single-process matrix are the stencils. *)
Lemma single_process_row n idx :
  grid n -> 0 <= idx < n * n * n ->
  row_of (strip (assemble_poisson3d 1 0 n 1)) (Z.to_nat idx) = stencil n idx.
Proof.
  intros G Hidx. pose proof G as [G2 G3].
  assert (F1 : fits (n * n * n) 1 0 1)
    by (constructor; unfold INT_MAX; lia).
  pose proof (assemble_poisson3d_rows n 1 0 1 G F1) as (_ & _ & A).
  cbv zeta in A. rewrite (row_range_assign _ _ _ _ F1) in A.
  rewrite (single_range (n * n * n)) in A by lia. cbn [fst snd] in A.
  rewrite Z.sub_0_r in A. rewrite A. cbn [strip].
  rewrite row_of_crs by (rewrite length_map, rows_from_length; lia).
  rewrite (nth_indep _ [] (stencil n 0))
    by (rewrite length_map, rows_from_length; lia).
  rewrite map_nth, rows_from_nth by lia. f_equal. lia.
Qed.

(** X6.  The assembled matrix is symmetric: if row [idx] stores the value
    [v] in column [c], then [c] is a row of the matrix and row [c] stores
    the same value [v] in column [idx]. *)
Theorem poisson_matrix_symmetric n idx c v :
  grid n -> 0 <= idx < n * n * n ->
  let A := strip (assemble_poisson3d 1 0 n 1) in
  In (c, v) (row_of A (Z.to_nat idx)) ->
  0 <= c < n * n * n /\ In (idx, v) (row_of A (Z.to_nat c)).
Proof.
  intros G Hidx A H. unfold A in *. pose proof G as [G2 G3].
  rewrite single_process_row in H by assumption.
  assert (Hc : 0 <= c < n * n * n).
  { pose proof (stencil_columns n idx ltac:(lia) Hidx) as S.
    rewrite Forall_forall in S. apply (S c).
    apply in_map_iff. exists (c, v). split; [ reflexivity | exact H ]. }
  split; [ exact Hc | ].
  rewrite single_process_row by assumption.
  apply stencil_symmetric; assumption || lia.
Qed.

Lemma poisson_matrix_symmetric_witness :
  In (22, PrimFloat.opp 4%float)
     (row_of (strip (assemble_poisson3d 1 0 3 1)) (Z.to_nat 13)).
Proof.
  assert (H : In (13, PrimFloat.opp 4%float)
                (row_of (strip (assemble_poisson3d 1 0 3 1)) (Z.to_nat 22)))
    by (vm_compute; left; reflexivity).
  refine (proj2 (poisson_matrix_symmetric 3 22 13 _ _ _ H));
    unfold grid, MAX_ROWS; lia.
Defined.

Lemma stencil_length n idx :
  2 <= n -> 0 <= idx < n * n * n ->
  (4 <= length (stencil n idx) <= 7)%nat.
Proof.
  intros Hn Hidx. pose proof (coordinates n idx ltac:(lia) Hidx) as C.
  cbv zeta in C. destruct C as (_ & Hi & Hj & Hk & _).
  unfold stencil, neighbour.
  set (k := idx / (n * n)) in *. set (j := (idx / n) mod n) in *.
  set (i := idx mod n) in *.
  destruct (in_grid n (k - 1)) eqn:K1, (in_grid n (j - 1)) eqn:J1,
    (in_grid n (i - 1)) eqn:I1, (in_grid n (i + 1)) eqn:I2,
    (in_grid n (j + 1)) eqn:J2, (in_grid n (k + 1)) eqn:K2;
    cbn [app length]; unfold in_grid in *; lia.
Qed.

Lemma neighbour_off_diagonal n h idx d c :
  d <> 0 -> filter (fun e => fst e =? idx) (neighbour n h idx d c) = [].
Proof.
  intros Hd. unfold neighbour. destruct (in_grid n c); [ | reflexivity ].
  cbn [filter fst]. destruct (Z.eqb_spec (idx + d) idx); [ lia | reflexivity ].
Qed.

Lemma stencil_diagonal n idx :
  1 <= n ->
  filter (fun e => fst e =? idx) (stencil n idx)
  = [(idx, PrimFloat.mul (to_double 6) (to_double ((n - 1) * (n - 1))))].
Proof.
  intros Hn. unfold stencil. rewrite !filter_app.
  rewrite !neighbour_off_diagonal by nia.
  cbn [filter fst app]. now rewrite Z.eqb_refl.
Qed.

Lemma concat_length_bounds {A : Type} (rows : list (list A)) a b :
  Forall (fun l => (a <= length l <= b)%nat) rows ->
  (a * length rows <= length (concat rows) <= b * length rows)%nat.
Proof.
  induction 1 as [ | l rows Hl _ IH]; cbn [concat length]; [ lia | ].
  rewrite length_app. lia.
Qed.

Lemma offsets_last rows :
  last (offsets rows) 0 = Z.of_nat (length (concat rows)).
Proof.
  unfold offsets. rewrite seq_S, map_app. cbn [map Nat.add].
  rewrite last_last, firstn_all. reflexivity.
Qed.

(** X7.  Every assembled row holds between 4 and 7 entries, exactly one of
    them on the diagonal, with the value [6 * h2i]; so the strip holds
    between [4 * chunk] and [7 * chunk] entries, within the [chunk * 7]
    that the function reserves, and its last row pointer is that number of
    entries. *)
Theorem poisson_row_sizes n P rank align :
  grid n -> fits (n * n * n) P rank align ->
  let r := assemble_poisson3d P rank n align in
  let row_beg := fst (row_range (n * n * n) P rank align) in
  (forall k, Z.of_nat k < chunk r ->
     (4 <= length (row_of (strip r) k) <= 7)%nat
     /\ filter (fun e => fst e =? row_beg + Z.of_nat k) (row_of (strip r) k)
        = [(row_beg + Z.of_nat k,
            PrimFloat.mul (to_double 6) (to_double ((n - 1) * (n - 1))))])
  /\ 4 * chunk r <= Z.of_nat (length (col (strip r))) <= 7 * chunk r
  /\ length (val (strip r)) = length (col (strip r))
  /\ last (ptr (strip r)) 0 = Z.of_nat (length (col (strip r))).
Proof.
  intros G F r row_beg. pose proof G as [G2 G3].
  pose proof (assemble_poisson3d_rows n P rank align G F) as (O1 & O2 & A).
  cbv zeta in A. fold row_beg in O1, A. fold r in A.
  set (row_end := snd (row_range (n * n * n) P rank align)) in *.
  set (count := Z.to_nat (row_end - row_beg)) in *.
  set (rows := map (stencil n) (rows_from row_beg count)) in *.
  assert (L : length rows = count)
    by (unfold rows; now rewrite length_map, rows_from_length).
  assert (Hn : forall k, (k < count)%nat ->
             nth k rows [] = stencil n (row_beg + Z.of_nat k)).
  { intros k Hk. unfold rows.
    rewrite (nth_indep _ [] (stencil n 0))
      by (rewrite length_map, rows_from_length; lia).
    now rewrite map_nth, rows_from_nth by lia. }
  assert (Hall : Forall (fun l => (4 <= length l <= 7)%nat) rows).
  { apply Forall_forall. intros l Hl. unfold rows in Hl.
    apply in_map_iff in Hl. destruct Hl as (idx & <- & Hidx).
    unfold rows_from in Hidx. apply in_map_iff in Hidx.
    destruct Hidx as (k & <- & Hk). apply in_seq in Hk.
    apply stencil_length; lia. }
  rewrite A. cbn [chunk strip crs_of ptr col val].
  split; [ | split; [ | split ] ].
  - intros k Hk. rewrite row_of_crs by lia. rewrite Hn by lia.
    split; [ apply stencil_length; lia | apply stencil_diagonal; lia ].
  - rewrite length_map. pose proof (concat_length_bounds rows 4 7 Hall). lia.
  - now rewrite !length_map.
  - rewrite length_map. apply offsets_last.
Qed.

Lemma poisson_row_sizes_witness :
  4 * chunk (assemble_poisson3d 2 1 3 1)
  <= Z.of_nat (length (col (strip (assemble_poisson3d 2 1 3 1))))
  <= 7 * chunk (assemble_poisson3d 2 1 3 1).
Proof.
  refine (proj1 (proj2 (poisson_row_sizes 3 2 1 1 _ _))).
  - unfold grid, MAX_ROWS. lia.
  - constructor; unfold MAX_ROWS, INT_MAX; lia.
Defined.

End PoissonLaws.

(** ** The block-size dispatch *)

Module DispatchLaws.

Import Dispatch.

(** X8.  With distinct case labels, as a [switch] needs them, the dispatch
    calls a solver exactly when the block size is supported, and then it
    is its only action: [solve_block<B>] for a block case [B],
    [solve_scalar] for 1.  A CUDA build has no block cases, so it reports
    every block size other than 1 as unsupported, those of
    [AMGCL_BLOCK_SIZES] included. *)
Theorem dispatch_solves_iff_supported be block_sizes rank block_size :
  NoDup (supported be block_sizes) ->
  (existsb is_solve (dispatch be block_sizes rank block_size) = true
   <-> In block_size (supported be block_sizes))
  /\ (In block_size (block_cases be block_sizes) ->
      dispatch be block_sizes rank block_size = [SolveBlock block_size])
  /\ (block_size = 1 -> dispatch be block_sizes rank block_size = [SolveScalar])
  /\ (block_size <> 1 ->
      dispatch CUDA block_sizes rank block_size
      = if rank =? 0 then [Print "Unsupported block size!"] else []).
Proof.
  intros ND. unfold supported in *. apply NoDup_cons_iff in ND.
  destruct ND as [N1 _].
  assert (E1 : existsb (Z.eqb 1) (block_cases be block_sizes) = false).
  { destruct (existsb _ _) eqn:E; [ | reflexivity ].
    apply DispatchSpec.existsb_eqb_in in E. contradiction. }
  split; [ | split; [ | split ] ].
  - unfold dispatch. cbn [In].
    destruct (existsb (Z.eqb block_size) (block_cases be block_sizes)) eqn:E.
    + apply DispatchSpec.existsb_eqb_in in E. cbn. tauto.
    + assert (NI : ~ In block_size (block_cases be block_sizes)).
      { intros HI. apply DispatchSpec.existsb_eqb_in in HI. congruence. }
      destruct (Z.eqb_spec block_size 1) as [-> | Hne].
      * cbn. tauto.
      * destruct (rank =? 0); cbn; split; try discriminate;
          intros [H | H]; congruence || contradiction.
  - intros HI. apply DispatchSpec.existsb_eqb_in in HI.
    unfold dispatch. now rewrite HI.
  - intros ->. unfold dispatch. now rewrite E1.
  - intros Hne. unfold dispatch. cbn [block_cases existsb].
    destruct (Z.eqb_spec block_size 1); [ contradiction | reflexivity ].
Qed.

Lemma dispatch_solves_iff_supported_witness :
  dispatch BUILTIN default_block_sizes 2 3 = [SolveBlock 3]
  /\ dispatch CUDA default_block_sizes 0 3 = [Print "Unsupported block size!"].
Proof.
  assert (ND : forall be, NoDup (supported be default_block_sizes)).
  { intros be. destruct be; cbn; repeat constructor; cbn; intuition discriminate. }
  split.
  - refine (proj1 (proj2 (dispatch_solves_iff_supported BUILTIN default_block_sizes 2 3 (ND _))) _).
    cbn. tauto.
  - refine (proj2 (proj2 (proj2 (dispatch_solves_iff_supported BUILTIN default_block_sizes 0 3 (ND _)))) _).
    discriminate.
Defined.

End DispatchLaws.

(** ** Repartitioning *)

Module PartitionLaws.

Import Partition.

Section Backend.

Variable strip_t : Type.
Variable mat : Type.
Variable elt : Type.
Variable zero : elt.
Variable construct : Z -> Z -> strip_t -> mat.
Variable partitioner : ptype -> mat -> Z -> mat.
Variable mtranspose : mat -> mat.
Variable mproduct : mat -> mat -> mat.
Variable loc_rows : mat -> nat.
Variable spmv : Z -> mat -> list elt -> Z -> list elt -> list elt.

Let partition :=
  partition strip_t mat elt zero construct partitioner mtranspose mproduct
    loc_rows spmv.

(** X9.  Whatever its arguments, [partition] completes: it never composes
    a matrix that was moved to the backend and never multiplies a vector
    by one that was not.  It appends its calls to the log it is given, the
    matrix it returns is composable, and the matrix it moves, if any, is
    the transposed restriction it used; each move is followed by one
    product with the right-hand side, which is otherwise left as it was. *)
Theorem partition_completes size rank Astrip rhs p block_size log :
  exists r calls,
    partition size rank Astrip rhs p block_size log = Some (r, log ++ calls)
    /\ resident _ (out_A _ _ r) = false
    /\ (forall m, In (MoveToBackend m) calls <-> In (Spmv m) calls)
    /\ (forall m, In (MoveToBackend m) calls ->
          out_J _ _ r = Some {| content := m; resident := true |})
    /\ (out_J _ _ r = None -> out_rhs _ _ r = rhs).
Proof.
  unfold partition, Partition.partition, make_dmatrix, run_partitioner,
    transpose, product, move_to_backend, backend_spmv, bind, emit, ret.
  cbn [content resident orb].
  destruct ((size =? 1) || ptype_eqb p merge).
  - eexists. exists [Construct mat]. split; [ reflexivity | ].
    cbn [out_A out_J out_rhs resident In].
    repeat split; try reflexivity; intros; intuition discriminate.
  - eexists. eexists. rewrite <- !app_assoc. cbn [app].
    split; [ reflexivity | ]. cbn [out_A out_J out_rhs resident In].
    split; [ reflexivity | ]. split; [ | split ].
    + intros m. intuition congruence.
    + intros m H. intuition (try discriminate).
      match goal with E : MoveToBackend _ = MoveToBackend _ |- _ =>
        inversion E end. reflexivity.
    + discriminate.
Qed.

End Backend.

End PartitionLaws.

(** ** The loading stage of [main] *)

Module SourceLaws.

Import Range Poisson Source Global MachineFacts RangeFacts RangeLaws.

Lemma assign_size_divisible N P rank align m :
  0 <= N -> 1 <= P -> 0 <= rank -> 1 <= align -> 1 <= m ->
  align mod m = 0 -> N mod m = 0 ->
  range_size (assign N P rank align) mod m = 0.
Proof.
  intros HN HP Hr Ha Hm Hdiv HNm.
  pose proof (aligned_chunk_bounds N P align HN HP Ha) as (H1 & H2 & H3 & _).
  cbv zeta in *. unfold assign, range_size. cbn [fst snd].
  set (chunk := aligned_chunk N P align) in *.
  apply multiple_mod in H3; [ | lia ]. destruct H3 as [q Hq].
  apply multiple_mod in Hdiv; [ | lia ]. destruct Hdiv as [a Ea].
  apply multiple_mod in HNm; [ | lia ]. destruct HNm as [t Et].
  assert (0 <= chunk * rank) by nia.
  apply multiple_mod; [ lia | ].
  destruct (Z_le_gt_dec (chunk * rank + chunk) N) as [L | G].
  - exists (q * a). replace (Z.min N (Z.min N (chunk * rank) + chunk)) with (chunk * rank + chunk) by lia.
    replace (Z.min N (chunk * rank)) with (chunk * rank) by lia.
    rewrite Hq at 2. rewrite Ea. ring.
  - destruct (Z_le_gt_dec N (chunk * rank)) as [L' | G'].
    + exists 0. lia.
    + exists (t - q * a * rank).
      replace (Z.min N (Z.min N (chunk * rank) + chunk)) with N by lia.
      replace (Z.min N (chunk * rank)) with (chunk * rank) by lia.
      rewrite Hq at 1. rewrite Et at 1. rewrite Ea. ring.
Qed.

Section Readers.

Variable mm_rows : string -> Z.
Variable mm_matrix : string -> Z -> Z -> arrays.
Variable mm_vector : string -> Z -> Z -> list float.
Variable crs_size : string -> Z.
Variable read_crs : string -> Z -> Z -> Z -> arrays.
Variable read_dense : string -> Z -> Z -> list float.

Let load := load mm_rows mm_matrix mm_vector crs_size read_crs read_dense.
Let global_rows := global_rows mm_rows crs_size.

(** The chunk that [main] receives is the size of the rank's range. *)
Lemma load_chunk size rank o aggr_block :
  fits (global_rows o) size rank (imul (opt_block_size o) aggr_block) ->
  chunk (load size rank o aggr_block)
  = range_size (assign (global_rows o) size rank
                  (imul (opt_block_size o) aggr_block)).
Proof.
  intros F. unfold load, global_rows, Source.load, Source.global_rows in *.
  set (bs := imul (opt_block_size o) aggr_block) in *.
  assert (R : forall N, fits N size rank bs ->
            psub (snd (row_range N size rank bs)) (fst (row_range N size rank bs))
            = range_size (assign N size rank bs)).
  { intros N FN. rewrite (row_range_assign _ _ _ _ FN).
    pose proof FN as [HN HP Hr Ha]. unfold MAX_ROWS in HN.
    pose proof (assign_ordered N size bs ltac:(lia) ltac:(lia) ltac:(lia)
                  rank ltac:(lia)) as [O1 O2].
    assert (O0 : 0 <= fst (assign N size rank bs)).
    { unfold assign. cbn [fst].
      pose proof (aligned_chunk_bounds N size bs) as B. cbv zeta in B.
      assert (0 <= aligned_chunk N size bs * rank) by nia. lia. }
    unfold range_size.
    apply psub_id. unfold is_ptrdiff, PTRDIFF_MIN, PTRDIFF_MAX. lia. }
  destruct (opt_matrix o) as [A_file | ].
  - destruct (opt_binary o); unfold read_binary, read_matrix_market;
      rewrite <- (R _ F);
      match goal with |- context [row_range ?N size rank bs] =>
        destruct (row_range N size rank bs) as [b e] end; reflexivity.
  - unfold assemble_poisson3d. rewrite <- (R _ F).
    match goal with |- context [row_range ?N size rank bs] =>
      destruct (row_range N size rank bs) as [b e] end. reflexivity.
Qed.

(** X13.  Whatever the source of the problem, the local row counts that
    [main] receives from the ranks [0 .. size-1] are not negative and add
    up to the global row count; and when [block_size * aggr_block] divides
    the global row count, the block size divides every local row count,
    so that [solve_block] splits the rows of a rank into whole blocks. *)
Theorem load_sizes size o aggr_block :
  0 <= global_rows o <= MAX_ROWS -> 1 <= size <= INT_MAX ->
  1 <= opt_block_size o -> 1 <= aggr_block ->
  opt_block_size o * aggr_block <= INT_MAX ->
  total (map (fun r => chunk (load size (Z.of_nat r) o aggr_block))
             (seq 0 (Z.to_nat size)))
  = global_rows o
  /\ (forall rank, 0 <= rank < size -> 0 <= chunk (load size rank o aggr_block))
  /\ (global_rows o mod (opt_block_size o * aggr_block) = 0 ->
      forall rank, 0 <= rank < size ->
        chunk (load size rank o aggr_block) mod opt_block_size o = 0).
Proof.
  intros HN HP Hb Ha Hba.
  assert (Ei : imul (opt_block_size o) aggr_block = opt_block_size o * aggr_block).
  { apply to_int_id. unfold is_int, INT_MIN, INT_MAX in *. nia. }
  assert (Hal : 1 <= opt_block_size o * aggr_block) by nia.
  assert (F : forall rank, 0 <= rank < size ->
            fits (global_rows o) size rank (imul (opt_block_size o) aggr_block)).
  { intros rank Hr. rewrite Ei. constructor; lia. }
  split; [ | split ].
  - rewrite (map_ext_in _ (fun r => range_size
               (assign (global_rows o) size (Z.of_nat r)
                  (opt_block_size o * aggr_block)))).
    + rewrite assign_sizes_sum by lia. rewrite Z2Nat.id by lia.
      pose proof (aligned_chunk_bounds (global_rows o) size
                    (opt_block_size o * aggr_block)
                    ltac:(lia) ltac:(lia) ltac:(lia)) as (_ & H & _).
      cbv zeta in H. unfold assign. cbn [fst]. lia.
    + intros r Hr. apply in_seq in Hr.
      rewrite load_chunk by (apply F; lia). now rewrite Ei.
  - intros rank Hr. rewrite load_chunk by (apply F; lia). rewrite Ei.
    pose proof (assign_ordered (global_rows o) size
                  (opt_block_size o * aggr_block)
                  ltac:(lia) ltac:(lia) ltac:(lia) rank ltac:(lia)).
    unfold range_size. lia.
  - intros Hdiv rank Hr. rewrite load_chunk by (apply F; lia). rewrite Ei.
    apply assign_size_divisible; try lia.
    + rewrite Z.mul_comm. apply Z.mod_mul. lia.
    + apply multiple_mod in Hdiv; [ | lia ]. destruct Hdiv as [t Et].
      apply multiple_mod; [ lia | ]. exists (t * aggr_block). rewrite Et. ring.
Qed.

End Readers.

Lemma load_sizes_witness :
  total (map (fun r => chunk (Source.load (fun _ => 6) (fun _ _ _ => empty_strip)
                                 (fun _ _ _ => []) (fun _ => 6)
                                 (fun _ _ _ _ => empty_strip) (fun _ _ _ => [])
                                 2 (Z.of_nat r) sample_options 1))
             (seq 0 (Z.to_nat 2)))
  = 6.
Proof.
  refine (proj1 (load_sizes (fun _ => 6) (fun _ _ _ => empty_strip)
                   (fun _ _ _ => []) (fun _ => 6)
                   (fun _ _ _ _ => empty_strip) (fun _ _ _ => [])
                   2 sample_options 1 _ _ _ _ _));
    cbn; unfold MAX_ROWS, INT_MAX; lia.
Defined.

End SourceLaws.

(** ** The tutorial's diagonal scaling *)

Module SerenaLaws.

Import Serena MachineFacts SerenaFacts.

Lemma nth_of_map_seq {A : Type} (f : nat -> A) n i d :
  (i < n)%nat -> nth i (map f (seq 0 n)) d = f i.
Proof.
  intros Hi.
  rewrite (nth_indep _ d (f 0%nat)) by (rewrite length_map, length_seq; lia).
  rewrite map_nth, seq_nth by lia. reflexivity.
Qed.

Lemma consecutive_increasing b n : forall s,
  StronglySorted Z.lt (map (fun r => b + Z.of_nat r) (seq s n)).
Proof.
  induction n as [ | n IH]; intros s; cbn [seq map]; constructor.
  - apply IH.
  - apply Forall_forall. intros c Hc. apply in_map_iff in Hc.
    destruct Hc as (r & <- & Hr). apply in_seq in Hr. lia.
Qed.

(** X10.  On a well-formed strip the scaling step hands over a well-formed
    strip for the diagonal matrix, of as many rows: its columns go up one
    by one from [row_beg], so all of them are rows of this rank, and it
    holds one value per row. *)
Theorem scaled_diagonal_is_local a row_beg chunk :
  0 <= row_beg -> 0 <= chunk -> row_beg + chunk <= PTRDIFF_MAX ->
  well_formed chunk a ->
  exists d,
    scale row_beg chunk a = Some d
    /\ well_formed chunk (diagonal_strip d)
    /\ StronglySorted Z.lt (d_col d)
    /\ Forall (fun c => row_beg <= c < row_beg + chunk) (d_col d)
    /\ Z.of_nat (length (dia d)) = chunk.
Proof.
  intros Hb Hc He W. eexists. split; [ apply scale_result; assumption | ].
  unfold PTRDIFF_MAX in He.
  unfold diagonal_strip.
  split; [ | split; [ | split ] ]; cbn [dia d_ptr d_col].
  - constructor; cbn [ptr col val].
    + now rewrite length_map, length_seq.
    + intros r Hr. rewrite !nth_of_map_seq by lia.
      rewrite length_map, length_seq. lia.
    + now rewrite !length_map, !length_seq.
    + rewrite length_map, length_seq. unfold PTRDIFF_MAX. lia.
    + apply Forall_forall. intros c Hc'. apply in_map_iff in Hc'.
      destruct Hc' as (r & <- & Hr). apply in_seq in Hr.
      unfold is_ptrdiff, PTRDIFF_MIN, PTRDIFF_MAX. lia.
  - apply consecutive_increasing.
  - apply Forall_forall. intros c Hc'. apply in_map_iff in Hc'.
    destruct Hc' as (r & <- & Hr). apply in_seq in Hr. lia.
  - rewrite length_map, length_seq. lia.
Qed.

Lemma scaled_diagonal_is_local_witness :
  exists d, scale 3 3 sample_strip = Some d
            /\ Forall (fun c => 3 <= c < 3 + 3) (d_col d).
Proof.
  destruct (scaled_diagonal_is_local sample_strip 3 3) as (d & E & _ & _ & F & _).
  - lia.
  - lia.
  - unfold PTRDIFF_MAX. lia.
  - exact SerenaSpec.sample_strip_well_formed.
  - exists d. split; assumption.
Defined.

(** X11.  The scaling step does not look at the value it inverts: a row
    whose diagonal entry is 1 keeps the factor 1, and a row whose stored
    diagonal entry is 0 gets the factor [infinity]. *)
Theorem scaling_of_unit_and_zero_diagonal a row_beg chunk i v :
  0 <= row_beg -> 0 <= chunk -> row_beg + chunk <= PTRDIFF_MAX ->
  well_formed chunk a -> (i < Z.to_nat chunk)%nat ->
  find (fun e => fst e =? row_beg + Z.of_nat i) (row_of a i)
  = Some (row_beg + Z.of_nat i, v) ->
  exists d,
    scale row_beg chunk a = Some d
    /\ (v = 1%float -> nth i (dia d) 0%float = 1%float)
    /\ (v = 0%float -> nth i (dia d) 0%float = infinity).
Proof.
  intros Hb Hc He W Hi Hf. eexists.
  split; [ apply scale_result; assumption | ]. cbn [dia].
  rewrite nth_of_map_seq by lia. unfold scaling_factor. rewrite Hf.
  split; intros ->; reflexivity.
Qed.

Lemma scaling_of_unit_and_zero_diagonal_witness :
  exists d, scale 7 1 {| ptr := [0; 2]; col := [3; 7]; val := [5; 0]%float |} = Some d
            /\ nth 0 (dia d) 0%float = infinity.
Proof.
  destruct (scaling_of_unit_and_zero_diagonal
              {| ptr := [0; 2]; col := [3; 7]; val := [5; 0]%float |} 7 1 0 0%float)
    as (d & E & _ & Z0).
  - lia.
  - lia.
  - unfold PTRDIFF_MAX. lia.
  - constructor; cbn.
    + reflexivity.
    + intros [ | r] Hr; cbn; lia.
    + reflexivity.
    + unfold PTRDIFF_MAX. lia.
    + repeat constructor; unfold PTRDIFF_MIN, PTRDIFF_MAX; lia.
  - cbn. lia.
  - reflexivity.
  - exists d. split; [ exact E | exact (Z0 eq_refl) ].
Defined.

Lemma scale_row_out_of_bounds a i I d :
  vget (ptr a) i = None \/ vget (ptr a) (uadd i 1) = None ->
  scale_row a i I d = None.
Proof.
  intros H. unfold scale_row.
  destruct (vset (d_ptr d) i (to_ptrdiff i)); [ | reflexivity ].
  destruct (vset (d_col d) i (to_ptrdiff I)); [ | reflexivity ].
  destruct H as [-> | H]; [ reflexivity | ].
  rewrite H. destruct (vget (ptr a) i); reflexivity.
Qed.

Lemma scale_loop_out_of_bounds a i0 count : forall i I d,
  (i <= i0 < i + count)%nat -> Z.of_nat i0 + 1 <= SIZE_MAX ->
  vget (ptr a) (Z.of_nat i0) = None \/ vget (ptr a) (Z.of_nat (S i0)) = None ->
  scale_loop count a (Z.of_nat i) I d = None.
Proof.
  induction count as [ | count IH]; intros i I d Hi Hmax H; [ lia | ].
  cbn [scale_loop].
  assert (E : uadd (Z.of_nat i) 1 = Z.of_nat (S i)).
  { unfold uadd. rewrite to_size_id by (unfold is_size; lia). lia. }
  destruct (Nat.eq_dec i i0) as [-> | Hne].
  - rewrite scale_row_out_of_bounds; [ reflexivity | ]. now rewrite E.
  - destruct (scale_row a (Z.of_nat i) I d); [ | reflexivity ].
    rewrite E. apply IH; [ lia | assumption | assumption ].
Qed.

(** X12.  The scaling step checks no size: when [ptr] holds fewer than
    [chunk + 1] row pointers and there is a row to scale, it reads [ptr]
    past its end, which is undefined. *)
Theorem scale_reads_past_short_ptr a row_beg chunk :
  0 < chunk <= PTRDIFF_MAX -> (length (ptr a) <= Z.to_nat chunk)%nat ->
  scale row_beg chunk a = None.
Proof.
  intros Hc Hl. unfold scale. unfold PTRDIFF_MAX in Hc.
  change 0 with (Z.of_nat 0).
  rewrite (scale_loop_out_of_bounds a (Nat.pred (length (ptr a))));
    [ reflexivity | lia | unfold SIZE_MAX; lia | ].
  rewrite !vget_of_nat. destruct (ptr a) as [ | p ps] eqn:E.
  - left. reflexivity.
  - right. cbn [length Nat.pred]. apply nth_error_None. cbn [length]. lia.
Qed.

Lemma scale_reads_past_short_ptr_witness :
  scale 3 3 {| ptr := [0; 2; 3]; col := [3; 4; 5]; val := [4; 1; 2]%float |} = None.
Proof.
  apply scale_reads_past_short_ptr.
  - unfold PTRDIFF_MAX. lia.
  - cbn. lia.
Defined.

End SerenaLaws.
